(** * Rule evaluation engine of the compliance checker

    A shallow embedding of the routing, hub resolution, validation,
    wizard-state and outcome-grouping code, with the properties its
    specification states about them.

    Conventions of the embedding
    - a JS [number] used as an option index, a count or a weight is an
      integer of [Z] (the data sets hold integers only; NaN, infinities
      and fractions are outside the model);
    - an optional field [f?: T] is an [option T], [None] standing for
      [undefined];
    - a [Record<string, T>] is a [gmap string T]: lookup of an absent key
      is [None] (own keys only);
    - [===] on flag values is decidable equality on [FlagValue], which
      keeps booleans and strings apart. *)

From Stdlib Require Import ZArith List Bool String Ascii Permutation Sorted Lia.
From stdpp Require Import gmap strings pretty.

Local Open Scope string_scope.
Local Open Scope list_scope.
Local Open Scope Z_scope.

(** ** Data model (types.ts) *)

Inductive FlagValue : Type :=
  | VBool (b : bool)
  | VString (s : string).

#[global] Instance FlagValue_eq_dec : EqDecision FlagValue.
Proof. solve_decision. Defined.

Abbreviation Flags := (gmap string FlagValue).

(** The object under [flag_equals] of a condition. *)
Record FlagEquals : Type := {
  fe_flag_name : string;
  fe_value : FlagValue
}.

Record RouteCondition : Type := {
  answer_is : option Z;
  is_this_exact_match_selected : option (list Z);
  if_any_answer_in : option (list Z);
  if_none_selected_in : option (list Z);
  flag_equals : option FlagEquals
}.

Record SetFlag : Type := {
  flag_name : string;
  value : FlagValue;
  condition : option (list RouteCondition)
}.

Record Route : Type := {
  conditions : option (list RouteCondition);
  go_to : string;
  set_flags : option (list SetFlag)
}.

Record AnswerFlagConfig : Type := {
  afc_set_flags : option (list SetFlag);
  afc_exclusive : option bool
}.

Inductive NodeType : Type := radio | checkbox | hub.

Record DecisionNode : Type := {
  node_original_id : string;
  question_id : string;
  node_type : NodeType;
  routing : list Route;
  answer_flags : option (gmap string AnswerFlagConfig)
}.

Record DecisionTreeData : Type := {
  start : string;
  nodes : gmap string DecisionNode
}.

(** The value [evaluateRouting] and [evaluateHubNode] return when a route
    matches. *)
Record RoutingResult : Type := {
  nextNodeId : string;
  flagsToSet : list SetFlag
}.

(** ** Array and string primitives *)

(** [arr.includes(x)] on an array of integers. *)
Definition includes (arr : list Z) (x : Z) : bool :=
  existsb (Z.eqb x) arr.

(** [s.includes(needle)] on strings: [needle] occurs as a substring. *)
Fixpoint str_includes (needle s : string) : bool :=
  String.prefix needle s ||
  match s with
  | EmptyString => false
  | String _ s' => str_includes needle s'
  end.

(** [x || []] for an optional array. *)
Definition or_empty {A : Type} (x : option (list A)) : list A :=
  match x with
  | Some l => l
  | None => []
  end.

(** [flags[name] === v]. *)
Definition flag_is (flags : Flags) (name : string) (v : FlagValue) : bool :=
  bool_decide (flags !! name = Some v).

(** ** utils/routing.ts *)

Definition evaluateCondition (condition : RouteCondition)
    (selectedAnswers : list Z) (flags : Flags) : bool :=
  match answer_is condition with
  | Some i => includes selectedAnswers i
  | None =>
    match is_this_exact_match_selected condition with
    | Some required =>
        if negb (Nat.eqb (length selectedAnswers) (length required))
        then false
        else forallb (fun ans => includes selectedAnswers ans) required
    | None =>
      match if_any_answer_in condition with
      | Some l => existsb (fun ans => includes selectedAnswers ans) l
      | None =>
        match if_none_selected_in condition with
        | Some l => negb (existsb (fun ans => includes selectedAnswers ans) l)
        | None =>
          match flag_equals condition with
          | Some fe => flag_is flags (fe_flag_name fe) (fe_value fe)
          | None => true
          end
        end
      end
    end
  end.

Definition evaluateAllConditions (conditions : option (list RouteCondition))
    (selectedAnswers : list Z) (flags : Flags) : bool :=
  match conditions with
  | None => true
  | Some conds =>
      if Nat.eqb (length conds) 0 then true
      else forallb (fun cond => evaluateCondition cond selectedAnswers flags) conds
  end.

(** The [for (const route of ...)] loop shared by [evaluateRouting] and
    [evaluateHubNode]: the first matching route ends it. *)
Fixpoint firstMatchingRoute (routes : list Route) (selectedAnswers : list Z)
    (flags : Flags) : option RoutingResult :=
  match routes with
  | [] => None
  | route :: rest =>
      if evaluateAllConditions (conditions route) selectedAnswers flags
      then Some {| nextNodeId := go_to route;
                   flagsToSet := or_empty (set_flags route) |}
      else firstMatchingRoute rest selectedAnswers flags
  end.

Definition evaluateRouting (node : DecisionNode) (selectedAnswers : list Z)
    (flags : Flags) : option RoutingResult :=
  firstMatchingRoute (routing node) selectedAnswers flags.

(** [const conditionsMet = flagConfig.condition.every(...)]: only the
    [flag_equals] field of a nested condition is looked at. *)
Definition conditionsMet (conds : list RouteCondition) (currentFlags : Flags) : bool :=
  forallb (fun cond =>
    match flag_equals cond with
    | Some fe => flag_is currentFlags (fe_flag_name fe) (fe_value fe)
    | None => true
    end) conds.

(** One pass of the inner loop body: [continue] (skip) or [push]. *)
Definition flagConfigApplies (flagConfig : SetFlag) (currentFlags : Flags) : bool :=
  match condition flagConfig with
  | Some conds =>
      if Nat.ltb 0 (length conds) then conditionsMet conds currentFlags else true
  | None => true
  end.

Definition pushedFlag (flagConfig : SetFlag) : SetFlag :=
  {| flag_name := flag_name flagConfig;
     value := value flagConfig;
     condition := None |}.

(** The inner [for (const flagConfig of answerConfig.set_flags)] loop, on
    the accumulator [flagsToSet]. *)
Fixpoint pushFlagConfigs (flagsToSet : list SetFlag) (configs : list SetFlag)
    (currentFlags : Flags) : list SetFlag :=
  match configs with
  | [] => flagsToSet
  | flagConfig :: rest =>
      if flagConfigApplies flagConfig currentFlags
      then pushFlagConfigs (flagsToSet ++ [pushedFlag flagConfig]) rest currentFlags
      else pushFlagConfigs flagsToSet rest currentFlags
  end.

(** The outer [for (const answerIndex of selectedAnswers)] loop; the key
    is [answerIndex.toString()]. *)
Fixpoint answerFlagsLoop (flagsToSet : list SetFlag)
    (table : gmap string AnswerFlagConfig) (selectedAnswers : list Z)
    (currentFlags : Flags) : list SetFlag :=
  match selectedAnswers with
  | [] => flagsToSet
  | answerIndex :: rest =>
      match table !! (pretty answerIndex) with
      | Some answerConfig =>
          match afc_set_flags answerConfig with
          | Some configs =>
              answerFlagsLoop (pushFlagConfigs flagsToSet configs currentFlags)
                table rest currentFlags
          | None => answerFlagsLoop flagsToSet table rest currentFlags
          end
      | None => answerFlagsLoop flagsToSet table rest currentFlags
      end
  end.

Definition getAnswerFlags (node : DecisionNode) (selectedAnswers : list Z)
    (currentFlags : Flags) : list SetFlag :=
  match answer_flags node with
  | None => []
  | Some table => answerFlagsLoop [] table selectedAnswers currentFlags
  end.

Definition applyFlags (currentFlags : Flags) (flagsToSet : list SetFlag) : Flags :=
  fold_left (fun newFlags flag => <[flag_name flag := value flag]> newFlags)
    flagsToSet currentFlags.

Definition isHubNode (node : DecisionNode) : bool :=
  match node_type node with
  | hub => true
  | _ => str_includes "hub" (question_id node)
  end.

Definition evaluateHubNode (node : DecisionNode) (flags : Flags)
    : option RoutingResult :=
  firstMatchingRoute (routing node) [] flags.

(** ** hooks/useRouting.ts

    The hook closes over the imported [decisionTree]; here the tree is
    the section variable. *)

Record HubResult : Type := {
  finalNodeId : string;
  accumulatedFlags : list SetFlag
}.

(** [const maxIterations = 50; // Safety limit] *)
Definition maxIterations : nat := 50.

(** [for (const flag of result.flagsToSet)] of [processHubNodes]: every
    flag is written into the working copy and pushed on the accumulated
    list. *)
Definition applyHubFlags (currentFlags : Flags) (accumulated : list SetFlag)
    (flagsToSet : list SetFlag) : Flags * list SetFlag :=
  fold_left (fun st flag =>
      (<[flag_name flag := value flag]> (fst st), snd st ++ [flag]))
    flagsToSet (currentFlags, accumulated).

Section Routing.

Variable decisionTree : DecisionTreeData.

Definition getNode (nodeId : string) : option DecisionNode :=
  nodes decisionTree !! nodeId.

Definition getNextNode (currentNodeId : string) (selectedAnswers : list Z)
    (flags : Flags) : option RoutingResult :=
  match nodes decisionTree !! currentNodeId with
  | None => None
  | Some node => evaluateRouting node selectedAnswers flags
  end.

Definition getAllFlagsForAnswer (node : DecisionNode)
    (selectedAnswers : list Z) (currentFlags : Flags) : list SetFlag :=
  let answerFlags := getAnswerFlags node selectedAnswers currentFlags in
  let routingFlags :=
    match evaluateRouting node selectedAnswers currentFlags with
    | Some routingResult => flagsToSet routingResult
    | None => []
    end in
  answerFlags ++ routingFlags.

(** [while (iterations < maxIterations) { iterations++; ... }]: the
    counter only counts, so the loop is a recursion on the number
    [maxIterations - iterations] of rounds that remain. Every [break]
    leaves to the final [return]. *)
Fixpoint hubLoop (remaining : nat) (currentNodeId : string)
    (currentFlags : Flags) (accumulated : list SetFlag) : HubResult :=
  let stop := {| finalNodeId := currentNodeId;
                 accumulatedFlags := accumulated |} in
  match remaining with
  | O => stop
  | S remaining' =>
      if String.eqb currentNodeId "END" then stop
      else
        match nodes decisionTree !! currentNodeId with
        | None => stop
        | Some node =>
            if negb (isHubNode node) then stop
            else
              match evaluateHubNode node currentFlags with
              | None => stop
              | Some result =>
                  let st := applyHubFlags currentFlags accumulated
                              (flagsToSet result) in
                  hubLoop remaining' (nextNodeId result) (fst st) (snd st)
              end
        end
  end.

Definition processHubNodes (startNodeId : string) (flags : Flags) : HubResult :=
  hubLoop maxIterations startNodeId flags [].

(** *** Hops of a hub chain, as a relation

    One hop: the node is not the terminal id, exists, is a hub and has
    a matching route under the flags of the working copy. *)
Inductive hubHop : string * Flags -> list SetFlag -> string * Flags -> Prop :=
| hub_hop nodeId fl node result :
    nodeId <> "END" ->
    nodes decisionTree !! nodeId = Some node ->
    isHubNode node = true ->
    evaluateHubNode node fl = Some result ->
    hubHop (nodeId, fl) (flagsToSet result)
           (nextNodeId result, applyFlags fl (flagsToSet result)).

(** [hubChain n s acc s']: [n] consecutive hops lead from [s] to [s'],
    each evaluated on the flags merged so far, and set the flags [acc]
    in this order. *)
Inductive hubChain : nat -> string * Flags -> list SetFlag -> string * Flags -> Prop :=
| chain_done s : hubChain O s [] s
| chain_hop n s1 f1 s2 f2 s3 :
    hubHop s1 f1 s2 -> hubChain n s2 f2 s3 ->
    hubChain (S n) s1 (f1 ++ f2) s3.

(** Where the loop breaks: the terminal id, an id the tree does not
    have, a node that is not a hub, or a hub without matching route. *)
Definition hubStops (s : string * Flags) : Prop :=
  fst s = "END" \/
  nodes decisionTree !! fst s = None \/
  exists node, nodes decisionTree !! fst s = Some node /\
    (isHubNode node = false \/ evaluateHubNode node (snd s) = None).

(** The cap is reached while hubs remain: 50 hops were made and the
    node reached is again a hub other than the terminal id. *)
Definition capReached (startNodeId : string) (flags : Flags) : Prop :=
  exists acc final fl node,
    hubChain maxIterations (startNodeId, flags) acc (final, fl) /\
    final <> "END" /\
    nodes decisionTree !! final = Some node /\
    isHubNode node = true.

End Routing.

(** ** utils/validation.ts *)

Inductive QuestionType : Type := single_choice | multiple_choice.

#[global] Instance QuestionType_eq_dec : EqDecision QuestionType.
Proof. solve_decision. Defined.

Record QuestionOption : Type := {
  option_id : string;
  option_text : string;
  exclusive : option bool
}.

Record Question : Type := {
  q_id : string;
  q_original_id : string;
  q_text : string;
  section_title : string;
  q_type : QuestionType;
  required : bool;
  options : list QuestionOption
}.

(** Of a rule, the fields [validateAnswer] reads. *)
Record ValidationRule : Type := {
  rule_required : bool;
  rule_type : QuestionType;
  min_selections : Z;
  max_selections : option Z
}.

Record ValidationResult : Type := {
  isValid : bool;
  errors : list string
}.

(** *** [parseInt] of one argument

    Leading (ASCII) white space, an optional sign, an optional [0x]
    prefix, then the longest run of digits of the radix; [None] is NaN.
    Values stay exact (the model does not round to a double). *)
Definition isWhiteSpace (c : ascii) : bool :=
  let n := nat_of_ascii c in
  (Nat.eqb n 32 || (Nat.leb 9 n && Nat.leb n 13))%bool.

Fixpoint trimStart (s : string) : string :=
  match s with
  | EmptyString => EmptyString
  | String c s' => if isWhiteSpace c then trimStart s' else s
  end.

Definition digitValue (c : ascii) : option Z :=
  let n := Z.of_nat (nat_of_ascii c) in
  if (48 <=? n) && (n <=? 57) then Some (n - 48)
  else if (97 <=? n) && (n <=? 122) then Some (n - 87)
  else if (65 <=? n) && (n <=? 90) then Some (n - 55)
  else None.

Fixpoint parseDigits (radix : Z) (acc : option Z) (s : string) : option Z :=
  match s with
  | EmptyString => acc
  | String c s' =>
      match digitValue c with
      | Some d =>
          if d <? radix
          then parseDigits radix (Some (default 0 acc * radix + d)) s'
          else acc
      | None => acc
      end
  end.

Definition parseInt (s : string) : option Z :=
  let s := trimStart s in
  let '(sign, s) :=
    match s with
    | String "-"%char s' => (-1, s')
    | String "+"%char s' => (1, s')
    | _ => (1, s)
    end in
  let '(radix, s) :=
    match s with
    | String "0"%char (String "x"%char s') => (16, s')
    | String "0"%char (String "X"%char s') => (16, s')
    | _ => (10, s)
    end in
  match parseDigits radix None s with
  | Some n => Some (sign * n)
  | None => None
  end.

(** Truthiness of [opt.exclusive] and of a number. *)
Definition truthy_flag (b : option bool) : bool := default false b.
Definition truthy_num (n : Z) : bool := negb (n =? 0).

Definition msg_required : string := "Please select at least one option".
Definition msg_single : string := "Please select only one option".
Definition msg_min (n : Z) : string :=
  "Please select at least " +:+ pretty n +:+ " option(s)".
Definition msg_max (n : Z) : string :=
  "Please select at most " +:+ pretty n +:+ " option(s)".
Definition msg_exclusive : string :=
  "The selected option cannot be combined with other options".

(** [selectedAnswers.length] as a number. *)
Definition len {A : Type} (l : list A) : Z := Z.of_nat (length l).

(** The block [if (validationRule) { ... }]: pushes on [errors]. *)
Definition checkBounds (errors : list string) (selectedAnswers : list Z)
    (validationRule : option ValidationRule) : list string :=
  match validationRule with
  | None => errors
  | Some rule =>
      let errors :=
        if truthy_num (min_selections rule) &&
           (len selectedAnswers <? min_selections rule)
        then errors ++ [msg_min (min_selections rule)] else errors in
      match max_selections rule with
      | Some m =>
          if truthy_num m && (m <? len selectedAnswers)
          then errors ++ [msg_max m] else errors
      | None => errors
      end
  end.

Definition exclusiveOptions (question : Question) : list QuestionOption :=
  List.filter (fun opt => truthy_flag (exclusive opt)) (options question).

(** [selectedAnswers.some(ans => exclusiveOptions.some(opt =>
    parseInt(opt.id) === ans))] *)
Definition exclusiveSelected (question : Question) (selectedAnswers : list Z) : bool :=
  existsb (fun ans =>
    existsb (fun opt =>
      match parseInt (option_id opt) with
      | Some n => n =? ans
      | None => false
      end) (exclusiveOptions question)) selectedAnswers.

Definition validateAnswer (question : Question) (selectedAnswers : list Z)
    (validationRule : option ValidationRule) : ValidationResult :=
  let errors : list string := [] in
  if required question && (len selectedAnswers =? 0)
  then {| isValid := false; errors := errors ++ [msg_required] |}
  else
    if match q_type question with single_choice => 1 <? len selectedAnswers
       | multiple_choice => false end
    then {| isValid := false; errors := errors ++ [msg_single] |}
    else
      let errors := checkBounds errors selectedAnswers validationRule in
      if (0 <? len (exclusiveOptions question)) &&
         (exclusiveSelected question selectedAnswers &&
          (1 <? len selectedAnswers))
      then {| isValid := false; errors := errors ++ [msg_exclusive] |}
      else {| isValid := len errors =? 0; errors := errors |}.

(** [question.options[optionIndex]]: [undefined] off the array. *)
Definition optionAt (question : Question) (optionIndex : Z) : option QuestionOption :=
  if optionIndex <? 0 then None
  else options question !! Z.to_nat optionIndex.

(** [option?.exclusive === true] *)
Definition isExclusiveOption (question : Question) (optionIndex : Z) : bool :=
  match optionAt question optionIndex with
  | Some opt => bool_decide (exclusive opt = Some true)
  | None => false
  end.

(** [question.options.map((opt, idx) => opt.exclusive ? idx : -1)
      .filter(idx => idx !== -1)] *)
Definition exclusiveIndices (question : Question) : list Z :=
  List.filter (fun idx => negb (idx =? -1))
    (imap (fun idx opt => if truthy_flag (exclusive opt)
                          then Z.of_nat idx else -1)
          (options question)).

Definition handleSelectionWithExclusivity (question : Question)
    (currentSelection : list Z) (toggledOption : Z) : list Z :=
  let isExclusive := isExclusiveOption question toggledOption in
  let wasSelected := includes currentSelection toggledOption in
  match q_type question with
  | single_choice => if wasSelected then [] else [toggledOption]
  | multiple_choice =>
      if wasSelected
      then List.filter (fun opt => negb (opt =? toggledOption)) currentSelection
      else
        if isExclusive then [toggledOption]
        else
          List.filter (fun opt => negb (includes (exclusiveIndices question) opt))
            currentSelection ++ [toggledOption]
  end.

(** ** hooks/useWizardState.ts

    The hook owns two state cells, [state] and [historyStack]; an
    operation is a function on the pair of them. *)

Record WizardState : Type := {
  currentNodeId : string;
  answers : gmap string (list Z);
  flags : Flags;
  history : list string;
  isComplete : bool
}.

Record HistoryEntry : Type := {
  nodeId : string;
  entry_answers : list Z;
  entry_flags : Flags
}.

Record WizardStore : Type := {
  state : WizardState;
  historyStack : list HistoryEntry
}.

Section WizardStateHook.

Variable decisionTree : DecisionTreeData.

Definition initialState : WizardState :=
  {| currentNodeId := start decisionTree;
     answers := ∅;
     flags := ∅;
     history := [];
     isComplete := false |}.

Definition initialStore : WizardStore :=
  {| state := initialState; historyStack := [] |}.

Definition setCurrentNode (newNodeId : string) (st : WizardStore) : WizardStore :=
  let prev := state st in
  {| state := {| currentNodeId := newNodeId;
                 answers := answers prev;
                 flags := flags prev;
                 history := history prev;
                 isComplete := String.eqb newNodeId "END" |};
     historyStack := historyStack st |}.

Definition setAnswer (questionId : string) (selected : list Z)
    (st : WizardStore) : WizardStore :=
  let prev := state st in
  {| state := {| currentNodeId := currentNodeId prev;
                 answers := <[questionId := selected]> (answers prev);
                 flags := flags prev;
                 history := history prev;
                 isComplete := isComplete prev |};
     historyStack := historyStack st |}.

Definition applyFlagsToState (flagsToSet : list SetFlag) (st : WizardStore)
    : WizardStore :=
  let prev := state st in
  {| state := {| currentNodeId := currentNodeId prev;
                 answers := answers prev;
                 flags := applyFlags (flags prev) flagsToSet;
                 history := history prev;
                 isComplete := isComplete prev |};
     historyStack := historyStack st |}.

Definition addToHistory (visited : string) (selected : list Z)
    (flagsBefore : Flags) (st : WizardStore) : WizardStore :=
  let prev := state st in
  {| state := {| currentNodeId := currentNodeId prev;
                 answers := answers prev;
                 flags := flags prev;
                 history := history prev ++ [visited];
                 isComplete := isComplete prev |};
     historyStack := historyStack st ++
       [ {| nodeId := visited; entry_answers := selected;
            entry_flags := flagsBefore |} ] |}.

(** [historyStack[historyStack.length - 1]] is [last], which is [None]
    exactly when [historyStack.length === 0]; [slice(0, -1)] is
    [removelast]. *)
Definition goBack (st : WizardStore) : bool * WizardStore :=
  match last (historyStack st) with
  | None => (false, st)
  | Some previousEntry =>
      let prev := state st in
      (true,
       {| state := {| currentNodeId := nodeId previousEntry;
                      answers := answers prev;
                      flags := entry_flags previousEntry;
                      history := removelast (history prev);
                      isComplete := false |};
          historyStack := removelast (historyStack st) |})
  end.

Definition completeWizard (st : WizardStore) : WizardStore :=
  let prev := state st in
  {| state := {| currentNodeId := currentNodeId prev;
                 answers := answers prev;
                 flags := flags prev;
                 history := history prev;
                 isComplete := true |};
     historyStack := historyStack st |}.

Definition resetWizard (st : WizardStore) : WizardStore := initialStore.

(** The stores a session can be in: the initial one, and what the
    operations of the hook make of a store. *)
Inductive reachable : WizardStore -> Prop :=
| reach_initial : reachable initialStore
| reach_setCurrentNode n st :
    reachable st -> reachable (setCurrentNode n st)
| reach_setAnswer q sel st :
    reachable st -> reachable (setAnswer q sel st)
| reach_applyFlags fs st :
    reachable st -> reachable (applyFlagsToState fs st)
| reach_addToHistory n sel fl st :
    reachable st -> reachable (addToHistory n sel fl st)
| reach_goBack st :
    reachable st -> reachable (snd (goBack st))
| reach_completeWizard st :
    reachable st -> reachable (completeWizard st)
| reach_resetWizard st :
    reachable st -> reachable (resetWizard st).

End WizardStateHook.

(** ** utils/outcomeEvaluator.ts *)

Inductive StructureLevel : Type := L_role | L_risk_level | L_obligation.

#[global] Instance StructureLevel_eq_dec : EqDecision StructureLevel.
Proof. solve_decision. Defined.

Record Outcome : Type := {
  outcome_id : string;
  structure_level : StructureLevel;
  priority_weight : Z;
  risk_label : string;
  display_color : string;
  outcome_text : string;
  applicable_articles : list Z;
  is_empty : bool
}.

Record GroupedOutcomes : Type := {
  role : list Outcome;
  risk_level : list Outcome;
  obligation : list Outcome
}.

(** *** [Array.prototype.sort(compareFn)]

    The language fixes the sort as stable; for a comparator that orders
    the elements consistently the sorted array is then determined, and
    insertion from the right computes it: an element goes in front of
    the first one it does not have to follow. *)
Fixpoint sort_insert {A : Type} (compareFn : A -> A -> Z) (x : A)
    (sorted : list A) : list A :=
  match sorted with
  | [] => [x]
  | y :: rest =>
      if compareFn x y <=? 0 then x :: sorted
      else y :: sort_insert compareFn x rest
  end.

Definition array_sort {A : Type} (compareFn : A -> A -> Z) (arr : list A) : list A :=
  fold_right (sort_insert compareFn) [] arr.

(** [(a, b) => b.priority_weight - a.priority_weight] *)
Definition byWeightDesc (a b : Outcome) : Z :=
  priority_weight b - priority_weight a.

(** [grouped[level].push(outcome)]; every level names one of the three
    arrays, so the guard [if (grouped[level])] holds. *)
Definition pushOutcome (grouped : GroupedOutcomes) (outcome : Outcome)
    : GroupedOutcomes :=
  match structure_level outcome with
  | L_role =>
      {| role := role grouped ++ [outcome];
         risk_level := risk_level grouped;
         obligation := obligation grouped |}
  | L_risk_level =>
      {| role := role grouped;
         risk_level := risk_level grouped ++ [outcome];
         obligation := obligation grouped |}
  | L_obligation =>
      {| role := role grouped;
         risk_level := risk_level grouped;
         obligation := obligation grouped ++ [outcome] |}
  end.

Definition groupOutcomesByLevel (activeOutcomes : list Outcome) : GroupedOutcomes :=
  let grouped :=
    fold_left pushOutcome activeOutcomes
      {| role := []; risk_level := []; obligation := [] |} in
  {| role := array_sort byWeightDesc (role grouped);
     risk_level := array_sort byWeightDesc (risk_level grouped);
     obligation := array_sort byWeightDesc (obligation grouped) |}.

(** The bucket of a level. *)
Definition bucket (grouped : GroupedOutcomes) (level : StructureLevel) : list Outcome :=
  match level with
  | L_role => role grouped
  | L_risk_level => risk_level grouped
  | L_obligation => obligation grouped
  end.

Definition hasLevel (level : StructureLevel) (outcome : Outcome) : bool :=
  bool_decide (structure_level outcome = level).

Definition hasWeight (w : Z) (outcome : Outcome) : bool :=
  priority_weight outcome =? w.

(** ** Notions used to state the properties *)

(** A route matches when each of its conditions holds; a route without
    conditions matches. *)
Definition routeMatches (route : Route) (sel : list Z) (fl : Flags) : Prop :=
  forall cond, In cond (or_empty (conditions route)) ->
    evaluateCondition cond sel fl = true.

Definition resultOf (route : Route) : RoutingResult :=
  {| nextNodeId := go_to route; flagsToSet := or_empty (set_flags route) |}.

(** The condition with only the exact-match field. *)
Definition exactMatch (S : list Z) : RouteCondition :=
  {| answer_is := None; is_this_exact_match_selected := Some S;
     if_any_answer_in := None; if_none_selected_in := None;
     flag_equals := None |}.


Definition noCondition : RouteCondition :=
  {| answer_is := None; is_this_exact_match_selected := None;
     if_any_answer_in := None; if_none_selected_in := None;
     flag_equals := None |}.

(** The condition cut down to its first populated field, in the order
    answer_is, exact match, any-in, none-in, flag-equals. *)
Definition firstPopulated (cond : RouteCondition) : RouteCondition :=
  match answer_is cond, is_this_exact_match_selected cond,
        if_any_answer_in cond, if_none_selected_in cond, flag_equals cond with
  | Some i, _, _, _, _ =>
      {| answer_is := Some i; is_this_exact_match_selected := None;
         if_any_answer_in := None; if_none_selected_in := None;
         flag_equals := None |}
  | None, Some req, _, _, _ => exactMatch req
  | None, None, Some l, _, _ =>
      {| answer_is := None; is_this_exact_match_selected := None;
         if_any_answer_in := Some l; if_none_selected_in := None;
         flag_equals := None |}
  | None, None, None, Some l, _ =>
      {| answer_is := None; is_this_exact_match_selected := None;
         if_any_answer_in := None; if_none_selected_in := Some l;
         flag_equals := None |}
  | None, None, None, None, Some fe =>
      {| answer_is := None; is_this_exact_match_selected := None;
         if_any_answer_in := None; if_none_selected_in := None;
         flag_equals := Some fe |}
  | None, None, None, None, None => noCondition
  end.

(** The flags one selected index contributes: the entries of its
    configuration that pass their guard, in order. *)
Definition appliedFor (table : gmap string AnswerFlagConfig) (fl : Flags)
    (answerIndex : Z) : list SetFlag :=
  match table !! pretty answerIndex with
  | Some answerConfig =>
      map pushedFlag
        (List.filter (fun flagConfig => flagConfigApplies flagConfig fl)
           (or_empty (afc_set_flags answerConfig)))
  | None => []
  end.

(** A nested condition entry holds in the sense of [getAnswerFlags]'s
    claim: it has no flag-equality field, or the flag has the value. *)
Definition flagEntryHolds (fl : Flags) (cond : RouteCondition) : Prop :=
  match flag_equals cond with
  | Some fe => fl !! fe_flag_name fe = Some (fe_value fe)
  | None => True
  end.

(** *** Sample data *)

(** A condition with two populated fields: answer 0, and a flag. *)
Definition twoFieldCondition : RouteCondition :=
  {| answer_is := Some 0; is_this_exact_match_selected := None;
     if_any_answer_in := None; if_none_selected_in := None;
     flag_equals := Some {| fe_flag_name := "flag_x"; fe_value := VBool true |} |}.



(** A hub that routes back to itself while the flag [loop] is true and
    has no other route. *)
Definition loopCondition : RouteCondition :=
  {| answer_is := None; is_this_exact_match_selected := None;
     if_any_answer_in := None; if_none_selected_in := None;
     flag_equals := Some {| fe_flag_name := "loop"; fe_value := VBool true |} |}.

Definition loopHub : DecisionNode :=
  {| node_original_id := "H"; question_id := "hub_loop"; node_type := hub;
     routing := [ {| conditions := Some [loopCondition]; go_to := "H";
                     set_flags := None |} ];
     answer_flags := None |}.

Definition loopTree : DecisionTreeData :=
  {| start := "H"; nodes := {[ "H" := loopHub ]} |}.

Definition loopFlags : Flags := {[ "loop" := VBool true ]}.

(** Two hubs in a row: the first sets [seen], the second routes on it. *)
Definition seenFlag : SetFlag :=
  {| flag_name := "seen"; value := VBool true; condition := None |}.

Definition seenCondition : RouteCondition :=
  {| answer_is := None; is_this_exact_match_selected := None;
     if_any_answer_in := None; if_none_selected_in := None;
     flag_equals := Some {| fe_flag_name := "seen"; fe_value := VBool true |} |}.

Definition firstHub : DecisionNode :=
  {| node_original_id := "H1"; question_id := "eval_1"; node_type := hub;
     routing := [ {| conditions := None; go_to := "H2";
                     set_flags := Some [seenFlag] |} ];
     answer_flags := None |}.

Definition secondHub : DecisionNode :=
  {| node_original_id := "H2"; question_id := "Q_hub_2"; node_type := radio;
     routing := [ {| conditions := Some [seenCondition]; go_to := "Q_seen";
                     set_flags := None |};
                  {| conditions := None; go_to := "Q_unseen";
                     set_flags := None |} ];
     answer_flags := None |}.

Definition twoHubTree : DecisionTreeData :=
  {| start := "H1";
     nodes := <[ "H1" := firstHub ]> {[ "H2" := secondHub ]} |}.

(** The errors the bounds of a rule give for a selection: one for a
    selection shorter than a non-zero [min_selections], then one for a
    selection longer than a non-zero [max_selections]. *)
Definition boundErrors (sel : list Z) (rule : option ValidationRule) : list string :=
  match rule with
  | None => []
  | Some r =>
      (if len sel <? min_selections r then [msg_min (min_selections r)] else []) ++
      match max_selections r with
      | Some m =>
          if negb (m =? 0) && (m <? len sel) then [msg_max m] else []
      | None => []
      end
  end.

Definition invalid (errs : list string) : ValidationResult :=
  {| isValid := false; errors := errs |}.

(** The ids of the options are their positions, as in the data set. *)
Definition idsArePositions (question : Question) : Prop :=
  forall (i : nat) (opt : QuestionOption),
    options question !! i = Some opt ->
    parseInt (option_id opt) = Some (Z.of_nat i).

Definition plainOption (id text : string) : QuestionOption :=
  {| option_id := id; option_text := text; exclusive := None |}.

(** A multiple-choice question whose last option is exclusive. *)
Definition sampleQuestion : Question :=
  {| q_id := "Q2"; q_original_id := "2"; q_text := "Which apply?";
     section_title := "Scope"; q_type := multiple_choice; required := true;
     options := [ plainOption "0" "A"; plainOption "1" "B";
                  {| option_id := "2"; option_text := "None of the above";
                     exclusive := Some true |} ] |}.

Definition sampleRule : ValidationRule :=
  {| rule_required := true; rule_type := multiple_choice;
     min_selections := 1; max_selections := Some 1 |}.

(** Six options, the one at index 5 exclusive. *)
Definition sixOptions : list QuestionOption :=
  [ plainOption "0" "a"; plainOption "1" "b"; plainOption "2" "c";
    plainOption "3" "d"; plainOption "4" "e";
    {| option_id := "5"; option_text := "None of the above";
       exclusive := Some true |} ].

Definition checkboxQuestion : Question :=
  {| q_id := "Q3"; q_original_id := "3"; q_text := "Which apply?";
     section_title := "Scope"; q_type := multiple_choice; required := true;
     options := sixOptions |}.

Definition radioQuestion : Question :=
  {| q_id := "Q4"; q_original_id := "4"; q_text := "Which one?";
     section_title := "Scope"; q_type := single_choice; required := true;
     options := sixOptions |}.

(** A bucket is in display order: no outcome is followed by one of
    greater weight. *)
Definition weightDescending (l : list Outcome) : Prop :=
  StronglySorted (fun a b => priority_weight b <= priority_weight a) l.

Definition sampleOutcome (id : string) (level : StructureLevel) (w : Z) : Outcome :=
  {| outcome_id := id; structure_level := level; priority_weight := w;
     risk_label := "general"; display_color := "grey"; outcome_text := id;
     applicable_articles := []; is_empty := false |}.

(** The entry a first forward step from the start node [H] of [loopTree]
    leaves on the undo stack. *)
Definition sampleEntry : HistoryEntry :=
  {| nodeId := "H"; entry_answers := [0]; entry_flags := ∅ |}.

(** * Further code of the cited files *)

(** ** Object literals of flags (components/QuestionWizard.tsx)

    [Object.fromEntries(flagsToSet.map(f => [f.flag_name, f.value]))]
    defines the properties in list order, a later entry replacing an
    earlier one of the same name; [{...a, ...b}] copies [a], then [b]
    over it. *)
Definition flagEntries (flagsToSet : list SetFlag) : list (string * FlagValue) :=
  map (fun f => (flag_name f, value f)) flagsToSet.

Definition fromEntries (entries : list (string * FlagValue)) : Flags :=
  fold_left (fun obj kv => <[fst kv := snd kv]> obj) entries ∅.

Definition spread (a b : Flags) : Flags := b ∪ a.

(** ** utils/outcomeEvaluator.ts, continued

    [outcomes.outcomes] is read in two ways: through [Object.entries],
    which lists the pairs of key and outcome in the order of the object,
    and by key. The section variable is the list of entries, whose keys
    are distinct as the keys of an object are; a key is looked up among
    them. *)

(** The object literal [roleFlagMapping]. *)
Definition roleFlagMapping (systemRole : string) : option string :=
  if String.eqb systemRole "provider" then Some "flag_ai_system_role_provider"
  else if String.eqb systemRole "deployer" then Some "flag_ai_system_role_deployer"
  else if String.eqb systemRole "importer" then Some "flag_ai_system_role_importer"
  else if String.eqb systemRole "distributor"
       then Some "flag_ai_system_role_distributor"
  else if String.eqb systemRole "authorisedrepre"
       then Some "flag_ai_system_role_authorisedrepre"
  else if String.eqb systemRole "productmanufacturer"
       then Some "flag_ai_system_role_productmanufacturer"
  else None.

Section Outcomes.

Variable outcomeEntries : list (string * Outcome).

(** [outcomes.outcomes[key]] *)
Definition outcomeAt (key : string) : option Outcome :=
  snd <$> List.find (fun entry => String.eqb (fst entry) key) outcomeEntries.

(** The [for (const [flagId, outcome] of Object.entries(...))] loop. *)
Fixpoint flaggedOutcomes (activeOutcomes : list Outcome)
    (entries : list (string * Outcome)) (flags : Flags) : list Outcome :=
  match entries with
  | [] => activeOutcomes
  | (flagId, outcome) :: rest =>
      if flag_is flags flagId (VBool true)
      then
        if negb (is_empty outcome)
        then flaggedOutcomes (activeOutcomes ++ [outcome]) rest flags
        else flaggedOutcomes activeOutcomes rest flags
      else flaggedOutcomes activeOutcomes rest flags
  end.

Definition getActiveOutcomes (flags : Flags) : list Outcome :=
  let activeOutcomes := flaggedOutcomes [] outcomeEntries flags in
  match flags !! "flag_ai_system_role" with
  | Some (VString systemRole) =>
      match roleFlagMapping systemRole with
      | Some roleOutcomeId =>
          match outcomeAt roleOutcomeId with
          | Some roleOutcome =>
              if negb (is_empty roleOutcome) &&
                 negb (existsb (fun o => String.eqb (outcome_id o) roleOutcomeId)
                         activeOutcomes)
              then activeOutcomes ++ [roleOutcome]
              else activeOutcomes
          | None => activeOutcomes
          end
      | None => activeOutcomes
      end
  | _ => activeOutcomes
  end.

End Outcomes.

Definition riskPriority : list string :=
  [ "prohibited"; "systemic_risk"; "high_risk"; "obligations";
    "transparency_obligations"; "open_source_exception"; "general";
    "out_of_scope"; "not_applicable"; "role_classification" ].

(** [activeOutcomes.find(o => o.risk_level === risk)] found something. *)
Definition hasRisk (activeOutcomes : list Outcome) (risk : string) : bool :=
  existsb (fun o => String.eqb (risk_label o) risk) activeOutcomes.

(** The [for (const risk of riskPriority)] loop with its [return]. *)
Fixpoint firstRisk (risks : list string) (activeOutcomes : list Outcome) : string :=
  match risks with
  | [] => "general"
  | risk :: rest =>
      if hasRisk activeOutcomes risk then risk
      else firstRisk rest activeOutcomes
  end.

Definition getPrimaryRiskLevel (activeOutcomes : list Outcome) : string :=
  firstRisk riskPriority activeOutcomes.

(** A [Set<number>] is its elements in insertion order; [add] of an
    element already there changes nothing. *)
Definition set_add (s : list Z) (x : Z) : list Z :=
  if includes s x then s else s ++ [x].

(** The two nested [for] loops filling [articlesSet]. *)
Definition collectArticles (activeOutcomes : list Outcome) : list Z :=
  fold_left (fun articlesSet outcome =>
               fold_left set_add (applicable_articles outcome) articlesSet)
    activeOutcomes [].

(** [(a, b) => a - b] *)
Definition ascending (a b : Z) : Z := a - b.

Definition getApplicableArticles (activeOutcomes : list Outcome) : list Z :=
  array_sort ascending (collectArticles activeOutcomes).

(** ** utils/validation.ts, continued *)

(** [answers[qId] && answers[qId].length > 0], as the truth value
    [every] takes it for. *)
Definition hasRequiredAnswers (questionIds : list string)
    (answers : gmap string (list Z)) (questions : gmap string Question) : bool :=
  forallb (fun qId =>
    match questions !! qId with
    | Some question =>
        if negb (required question) then true
        else
          match answers !! qId with
          | Some selected => 0 <? len selected
          | None => false
          end
    | None => true
    end) questionIds.

(** ** hooks/useWizardState.ts, continued *)

(** [state.answers[questionId] || []] *)
Definition getAnswersForQuestion (st : WizardStore) (questionId : string) : list Z :=
  default [] (answers (state st) !! questionId).

(** ** components/QuestionWizard.tsx

    The component holds the two cells of the hook and its own
    [validationErrors]; what it writes with [console.error] is kept in
    [consoleErrors]. A handler is a function on these. *)
Record WizardComponent : Type := {
  wizard : WizardStore;
  validationErrors : list string;
  consoleErrors : list string
}.

Section QuestionWizard.

Variable decisionTree : DecisionTreeData.
Variable questions : gmap string Question.
Variable validationRules : gmap string ValidationRule.

Definition currentNode (c : WizardComponent) : option DecisionNode :=
  getNode decisionTree (currentNodeId (state (wizard c))).

Definition currentQuestion (c : WizardComponent) : option Question :=
  match currentNode c with
  | None => None
  | Some node => questions !! question_id node
  end.

Definition currentAnswers (c : WizardComponent) : list Z :=
  match currentQuestion c with
  | Some question => getAnswersForQuestion (wizard c) (q_id question)
  | None => []
  end.

Definition handleSelectionChange (selected : list Z) (c : WizardComponent)
    : WizardComponent :=
  match currentQuestion c with
  | None => c
  | Some question =>
      {| wizard := setAnswer (q_id question) selected (wizard c);
         validationErrors := [];
         consoleErrors := consoleErrors c |}
  end.

(** [if (flags.length > 0) { applyFlags(flags); }] *)
Definition applyFlagsIfAny (flagsToSet : list SetFlag) (st : WizardStore)
    : WizardStore :=
  if 0 <? len flagsToSet then applyFlagsToState flagsToSet st else st.

Definition handleNext (c : WizardComponent) : WizardComponent :=
  match currentNode c, currentQuestion c with
  | Some node, Some question =>
      let st := wizard c in
      let rule := validationRules !! q_id question in
      let validation := validateAnswer question (currentAnswers c) rule in
      if negb (isValid validation)
      then {| wizard := st;
              validationErrors := errors validation;
              consoleErrors := consoleErrors c |}
      else
        let st := addToHistory (currentNodeId (state (wizard c)))
                    (currentAnswers c) (flags (state (wizard c))) st in
        let flagsForAnswer :=
          getAllFlagsForAnswer node (currentAnswers c)
            (flags (state (wizard c))) in
        let st := applyFlagsIfAny flagsForAnswer st in
        let nextResult :=
          getNextNode decisionTree (currentNodeId (state (wizard c)))
            (currentAnswers c)
            (spread (flags (state (wizard c)))
               (fromEntries (flagEntries flagsForAnswer))) in
        match nextResult with
        | None =>
            {| wizard := st;
               validationErrors := validationErrors c;
               consoleErrors := consoleErrors c ++ ["No valid route found"] |}
        | Some nextResult =>
            let st := applyFlagsIfAny (flagsToSet nextResult) st in
            let updatedFlags :=
              spread (spread (flags (state (wizard c)))
                        (fromEntries (flagEntries flagsForAnswer)))
                (fromEntries (flagEntries (flagsToSet nextResult))) in
            let hubResult :=
              processHubNodes decisionTree (nextNodeId nextResult) updatedFlags in
            let st := applyFlagsIfAny (accumulatedFlags hubResult) st in
            {| wizard := setCurrentNode (finalNodeId hubResult) st;
               validationErrors := validationErrors c;
               consoleErrors := consoleErrors c |}
        end
  | _, _ => c
  end.

Definition handleBack (c : WizardComponent) : WizardComponent :=
  {| wizard := snd (goBack (wizard c));
     validationErrors := [];
     consoleErrors := consoleErrors c |}.

Definition handleRestart (c : WizardComponent) : WizardComponent :=
  {| wizard := resetWizard decisionTree (wizard c);
     validationErrors := [];
     consoleErrors := consoleErrors c |}.

Definition canGoNext (c : WizardComponent) : bool :=
  match currentQuestion c with
  | None => false
  | Some question =>
      if negb (required question) then true
      else 0 <? len (currentAnswers c)
  end.

Definition canGoBack (c : WizardComponent) : bool :=
  0 <? len (history (state (wizard c))).

End QuestionWizard.

(** The effect of the component that runs after a render: a current
    node declared as hub is resolved, and the wizard moves if the
    resolution leads elsewhere. *)
Definition hubEffect (decisionTree : DecisionTreeData) (c : WizardComponent)
    : WizardComponent :=
  let s := state (wizard c) in
  match getNode decisionTree (currentNodeId s) with
  | Some node =>
      match node_type node with
      | hub =>
          let hubResult := processHubNodes decisionTree (currentNodeId s) (flags s) in
          if negb (String.eqb (finalNodeId hubResult) (currentNodeId s))
          then
            {| wizard :=
                 setCurrentNode (finalNodeId hubResult)
                   (applyFlagsIfAny (accumulatedFlags hubResult) (wizard c));
               validationErrors := validationErrors c;
               consoleErrors := consoleErrors c |}
          else c
      | _ => c
      end
  | None => c
  end.

(** ** Notions used to state the further properties *)

(** The conditions with only the any-in, or only the none-in, field. *)
Definition anyIn (l : list Z) : RouteCondition :=
  {| answer_is := None; is_this_exact_match_selected := None;
     if_any_answer_in := Some l; if_none_selected_in := None;
     flag_equals := None |}.

Definition noneIn (l : list Z) : RouteCondition :=
  {| answer_is := None; is_this_exact_match_selected := None;
     if_any_answer_in := None; if_none_selected_in := Some l;
     flag_equals := None |}.

(** The last entry of a list of flags that sets the name [k]. *)
Definition lastSetting (k : string) (flagsToSet : list SetFlag) : option SetFlag :=
  List.find (fun f => String.eqb (flag_name f) k) (rev flagsToSet).

(** A node whose answer 0 and whose only route set the same flag. *)
Definition answerSetting : SetFlag :=
  {| flag_name := "flag_a"; value := VBool true; condition := None |}.

Definition routeSetting : SetFlag :=
  {| flag_name := "flag_a"; value := VString "route"; condition := None |}.

Definition overrideNode : DecisionNode :=
  {| node_original_id := "5"; question_id := "Q5"; node_type := radio;
     routing := [ {| conditions := None; go_to := "END";
                     set_flags := Some [routeSetting] |} ];
     answer_flags := Some {[ "0" := {| afc_set_flags := Some [answerSetting];
                                       afc_exclusive := None |} ]} |}.

(** A flag set by a route of a hub of the tree. *)
Definition fromHubRoute (tree : DecisionTreeData) (f : SetFlag) : Prop :=
  exists nodeId node route,
    nodes tree !! nodeId = Some node /\
    isHubNode node = true /\
    In route (routing node) /\
    In f (or_empty (set_flags route)).

(** A selection in which an exclusive index stands alone. *)
Definition exclusiveAlone (question : Question) (sel : list Z) : Prop :=
  existsb (isExclusiveOption question) sel = true -> (length sel <= 1)%nat.

(** A tree with a question node [N1] whose only route leads to the end
    and sets [seen], and a node [N0] without route; both ask the
    single-choice question [Q4]. *)
Definition endNode : DecisionNode :=
  {| node_original_id := "1"; question_id := "Q4"; node_type := radio;
     routing := [ {| conditions := None; go_to := "END";
                     set_flags := Some [seenFlag] |} ];
     answer_flags := None |}.

Definition deadNode : DecisionNode :=
  {| node_original_id := "0"; question_id := "Q4"; node_type := radio;
     routing := []; answer_flags := None |}.

Definition wizardTree : DecisionTreeData :=
  {| start := "N1";
     nodes := <[ "N1" := endNode ]> {[ "N0" := deadNode ]} |}.

Definition wizardQuestions : gmap string Question :=
  {[ "Q4" := radioQuestion ]}.

(** The wizard at its start node, answer 1 chosen. *)
Definition answeredStart : WizardComponent :=
  {| wizard := setAnswer "Q4" [1] (initialStore wizardTree);
     validationErrors := []; consoleErrors := [] |}.

(** The wizard at the node without route, answer 1 chosen. *)
Definition answeredDead : WizardComponent :=
  {| wizard := setCurrentNode "N0" (setAnswer "Q4" [1] (initialStore wizardTree));
     validationErrors := []; consoleErrors := [] |}.

(** An entry of the outcome table is active by its own flag. *)
Definition flaggedEntry (fl : Flags) (entry : string * Outcome) : bool :=
  flag_is fl (fst entry) (VBool true) && negb (is_empty (snd entry)).

(** The selection is named by the system-role flag. *)
Definition namedByRole (fl : Flags) (key : string) : Prop :=
  exists systemRole,
    fl !! "flag_ai_system_role" = Some (VString systemRole) /\
    roleFlagMapping systemRole = Some key.

(** All articles of a list of outcomes. *)
Definition articleOf (outs : list Outcome) (a : Z) : Prop :=
  exists o, In o outs /\ In a (applicable_articles o).

(** The buckets of a grouping, one after the other. *)
Definition flatten (g : GroupedOutcomes) : list Outcome :=
  role g ++ risk_level g ++ obligation g.

Definition emptyOutcome : Outcome :=
  {| outcome_id := "flag_unused"; structure_level := L_obligation;
     priority_weight := 100; risk_label := "prohibited";
     display_color := "red"; outcome_text := ""; applicable_articles := [5];
     is_empty := true |}.

Definition providerOutcome : Outcome :=
  {| outcome_id := "flag_ai_system_role_provider"; structure_level := L_role;
     priority_weight := 10; risk_label := "role_classification";
     display_color := "blue"; outcome_text := "Provider";
     applicable_articles := [16; 3]; is_empty := false |}.

Definition highRiskOutcome : Outcome :=
  {| outcome_id := "flag_high_risk"; structure_level := L_risk_level;
     priority_weight := 50; risk_label := "high_risk";
     display_color := "orange"; outcome_text := "High risk";
     applicable_articles := [6; 16]; is_empty := false |}.

Definition sampleTable : list (string * Outcome) :=
  [ ("flag_unused", emptyOutcome);
    ("flag_high_risk", highRiskOutcome);
    ("flag_ai_system_role_provider", providerOutcome) ].

Definition sampleFlags : Flags :=
  <[ "flag_unused" := VBool true ]>
    (<[ "flag_high_risk" := VBool true ]>
       {[ "flag_ai_system_role" := VString "provider" ]}).

(** The violations of the bounds of a rule by a selection: fewer entries
    than [min_selections], then more than [max_selections]. *)
Definition boundViolations (sel : list Z) (rule : option ValidationRule)
    : list string :=
  match rule with
  | None => []
  | Some r =>
      (if len sel <? min_selections r then [msg_min (min_selections r)] else []) ++
      match max_selections r with
      | Some m => if m <? len sel then [msg_max m] else []
      | None => []
      end
  end.

(** The rule, if any, gives no [max_selections] of 0. *)
Definition maxNotZero (rule : option ValidationRule) : Prop :=
  forall r m, rule = Some r -> max_selections r = Some m -> m <> 0.

Definition zeroMaxRule : ValidationRule :=
  {| rule_required := true; rule_type := multiple_choice;
     min_selections := 1; max_selections := Some 0 |}.

(** A question whose option ids are not the positions: the exclusive
    option stands first and has the id 7. *)
Definition shiftedQuestion : Question :=
  {| q_id := "Q7"; q_original_id := "7"; q_text := "Which apply?";
     section_title := "Scope"; q_type := multiple_choice; required := true;
     options := [ {| option_id := "7"; option_text := "None of the above";
                     exclusive := Some true |};
                  plainOption "8" "A"; plainOption "9" "B" ] |}.

(** A node on which the flag of answer 0 changes the route: on the
    former flags the default route matches, with the flag of the answer
    applied the first route does. *)
Definition takenFlag : SetFlag :=
  {| flag_name := "taken"; value := VBool true; condition := None |}.

Definition defaultFlag : SetFlag :=
  {| flag_name := "dflt"; value := VBool true; condition := None |}.

Definition flagACondition : RouteCondition :=
  {| answer_is := None; is_this_exact_match_selected := None;
     if_any_answer_in := None; if_none_selected_in := None;
     flag_equals := Some {| fe_flag_name := "flag_a"; fe_value := VBool true |} |}.

Definition detourNode : DecisionNode :=
  {| node_original_id := "9"; question_id := "Q4"; node_type := radio;
     routing := [ {| conditions := Some [flagACondition]; go_to := "END";
                     set_flags := Some [takenFlag] |};
                  {| conditions := None; go_to := "N0";
                     set_flags := Some [defaultFlag] |} ];
     answer_flags := Some {[ "0" := {| afc_set_flags := Some [answerSetting];
                                       afc_exclusive := None |} ]} |}.

Definition detourTree : DecisionTreeData :=
  {| start := "D";
     nodes := <[ "D" := detourNode ]> {[ "N0" := deadNode ]} |}.

(** The wizard at the start of [detourTree], answer 0 chosen. *)
Definition answeredDetour : WizardComponent :=
  {| wizard := setAnswer "Q4" [0] (initialStore detourTree);
     validationErrors := []; consoleErrors := [] |}.
(** * Properties *)

(** ** Array primitives *)

Lemma includes_In (arr : list Z) (x : Z) : includes arr x = true <-> In x arr.
Proof.
  unfold includes. rewrite existsb_exists. split.
  - intros [y [Hin Heq]]. apply Z.eqb_eq in Heq. now subst.
  - intros Hin. exists x. split; [assumption | apply Z.eqb_refl].
Qed.

Lemma includes_not_In (arr : list Z) (x : Z) : includes arr x = false <-> ~ In x arr.
Proof.
  rewrite <- includes_In. destruct (includes arr x); split; congruence.
Qed.


Lemma flag_is_true (fl : Flags) (name : string) (v : FlagValue) :
  flag_is fl name v = true <-> fl !! name = Some v.
Proof. unfold flag_is. apply bool_decide_eq_true. Qed.

(** ** Routing *)

Lemma evaluateAllConditions_matches (route : Route) (sel : list Z) (fl : Flags) :
  evaluateAllConditions (conditions route) sel fl = true <-> routeMatches route sel fl.
Proof.
  unfold evaluateAllConditions, routeMatches.
  destruct (conditions route) as [conds |]; simpl.
  - destruct conds as [| c conds]; simpl.
    + split; [intros _ cond [] | reflexivity].
    + change (evaluateCondition c sel fl &&
              forallb (fun cond => evaluateCondition cond sel fl) conds)%bool
        with (forallb (fun cond => evaluateCondition cond sel fl) (c :: conds)).
      apply forallb_forall.
  - split; [intros _ cond [] | reflexivity].
Qed.

Lemma evaluateAllConditions_no_match (route : Route) (sel : list Z) (fl : Flags) :
  evaluateAllConditions (conditions route) sel fl = false <-> ~ routeMatches route sel fl.
Proof.
  rewrite <- evaluateAllConditions_matches.
  destruct (evaluateAllConditions (conditions route) sel fl); split; congruence.
Qed.

(** The loop over the routes, by induction on the list: either a first
    matching route splits the list, or no route matches. *)
Lemma firstMatchingRoute_Some (routes : list Route) (sel : list Z) (fl : Flags)
    (res : RoutingResult) :
  firstMatchingRoute routes sel fl = Some res <->
  exists pre route post,
    routes = pre ++ route :: post /\
    Forall (fun r => ~ routeMatches r sel fl) pre /\
    routeMatches route sel fl /\
    res = resultOf route.
Proof.
  induction routes as [| r routes IH]; simpl.
  - split; [discriminate |].
    intros (pre & route & post & Heq & _). destruct pre; discriminate.
  - destruct (evaluateAllConditions (conditions r) sel fl) eqn:Hr.
    + apply evaluateAllConditions_matches in Hr. split.
      * intros [= <-]. exists [], r, routes. repeat split; auto.
      * intros (pre & route & post & Heq & Hpre & Hm & ->).
        destruct pre as [| p pre]; simpl in Heq; injection Heq as <- Hrest.
        -- reflexivity.
        -- inversion Hpre; subst. contradiction.
    + apply evaluateAllConditions_no_match in Hr. rewrite IH. split.
      * intros (pre & route & post & -> & Hpre & Hm & ->).
        exists (r :: pre), route, post. repeat split; auto.
      * intros (pre & route & post & Heq & Hpre & Hm & ->).
        destruct pre as [| p pre]; simpl in Heq; injection Heq as <- Hrest.
        -- contradiction.
        -- inversion Hpre; subst. exists pre, route, post. repeat split; auto.
Qed.

Lemma firstMatchingRoute_None (routes : list Route) (sel : list Z) (fl : Flags) :
  firstMatchingRoute routes sel fl = None <->
  Forall (fun r => ~ routeMatches r sel fl) routes.
Proof.
  induction routes as [| r routes IH]; simpl.
  - split; auto.
  - destruct (evaluateAllConditions (conditions r) sel fl) eqn:Hr.
    + apply evaluateAllConditions_matches in Hr. split; [discriminate |].
      intros H. inversion H; subst. contradiction.
    + apply evaluateAllConditions_no_match in Hr. rewrite IH. split.
      * intros H. constructor; assumption.
      * intros H. now inversion H.
Qed.

(** C1. [evaluateRouting] is a function of (node, selection, flags). It
    returns a result exactly when some route of the node matches, and the
    result is then the destination and the flags-to-set of the first
    matching route in declaration order; it returns null exactly when no
    route of the node matches. *)
Theorem evaluateRouting_first_match (node : DecisionNode) (sel : list Z) (fl : Flags) :
  (forall res,
     evaluateRouting node sel fl = Some res <->
     exists pre route post,
       routing node = pre ++ route :: post /\
       Forall (fun r => ~ routeMatches r sel fl) pre /\
       routeMatches route sel fl /\
       res = {| nextNodeId := go_to route;
                flagsToSet := or_empty (set_flags route) |}) /\
  (evaluateRouting node sel fl = None <->
     forall route, In route (routing node) -> ~ routeMatches route sel fl).
Proof.
  unfold evaluateRouting. split.
  - intros res. apply firstMatchingRoute_Some.
  - rewrite firstMatchingRoute_None. apply List.Forall_forall.
Qed.

(** ** Conditions *)

(** C2. For an exact-match condition whose required indices form a set
    (no index repeated), the evaluator answers true exactly when the
    selection has as many entries as the set and the same members,
    whatever the order. *)
Theorem exact_match_iff (cond : RouteCondition) (sel : list Z) (fl : Flags)
    (S : list Z) :
  answer_is cond = None ->
  is_this_exact_match_selected cond = Some S ->
  List.NoDup S ->
  (evaluateCondition cond sel fl = true <->
   length sel = length S /\ forall x, In x sel <-> In x S).
Proof.
  intros Hans Hexact Hnodup. unfold evaluateCondition. rewrite Hans, Hexact.
  destruct (Nat.eqb (length sel) (length S)) eqn:Hlen; simpl.
  - apply Nat.eqb_eq in Hlen. rewrite forallb_forall. split.
    + intros Hall. split; [assumption |].
      assert (Hincl : incl S sel).
      { intros x Hx. apply includes_In. now apply Hall. }
      intros x. split; [| apply Hincl].
      apply (NoDup_length_incl Hnodup); [lia | assumption].
    + intros [_ Hmem] x Hx. apply includes_In. now apply Hmem.
  - apply Nat.eqb_neq in Hlen. split; [discriminate | intros [? _]; contradiction].
Qed.

Lemma exact_match_iff_witness : evaluateCondition (exactMatch [0; 2]) [2; 0] ∅ = true.
Proof.
  apply (exact_match_iff (exactMatch [0; 2]) [2; 0] ∅ [0; 2]).
  - reflexivity.
  - reflexivity.
  - repeat constructor; simpl; intuition lia.
  - split; [reflexivity | simpl; intuition lia].
Defined.

Example exact_match_superset_rejected (fl : Flags) :
  evaluateCondition (exactMatch [0; 2]) [0; 1; 2] fl = false.
Proof. reflexivity. Qed.

(** Where the required array repeats an index the length test no longer
    counts members: [[0, 0]] accepts the selection [[0, 1]]. *)
Example exact_match_repeated_index (fl : Flags) :
  evaluateCondition (exactMatch [0; 0]) [0; 1] fl = true.
Proof. reflexivity. Qed.

(** C9. A condition with several populated fields is decided by the
    first populated one alone, in the order answer_is, exact match,
    any-in, none-in, flag-equals: erasing every later field changes
    nothing, and the answer is that of the first populated field. *)
Theorem evaluateCondition_first_populated (cond : RouteCondition) (sel : list Z)
    (fl : Flags) :
  evaluateCondition cond sel fl = evaluateCondition (firstPopulated cond) sel fl /\
  evaluateCondition cond sel fl =
    match answer_is cond, is_this_exact_match_selected cond,
          if_any_answer_in cond, if_none_selected_in cond, flag_equals cond with
    | Some i, _, _, _, _ => includes sel i
    | None, Some req, _, _, _ =>
        (Nat.eqb (length sel) (length req) && forallb (includes sel) req)%bool
    | None, None, Some l, _, _ => existsb (includes sel) l
    | None, None, None, Some l, _ => negb (existsb (includes sel) l)
    | None, None, None, None, Some fe =>
        flag_is fl (fe_flag_name fe) (fe_value fe)
    | None, None, None, None, None => true
    end.
Proof.
  unfold evaluateCondition, firstPopulated.
  destruct (answer_is cond) as [i |]; [split; reflexivity |].
  destruct (is_this_exact_match_selected cond) as [S |].
  { split; [reflexivity |].
    destruct (Nat.eqb (length sel) (length S)); reflexivity. }
  destruct (if_any_answer_in cond) as [l |]; [split; reflexivity |].
  destruct (if_none_selected_in cond) as [l |]; [split; reflexivity |].
  destruct (flag_equals cond) as [fe |]; split; reflexivity.
Qed.

(** With answer 0 selected the flag field of [twoFieldCondition] is not
    consulted: the condition holds though the flag is not set. *)
Example two_fields_first_wins :
  evaluateCondition twoFieldCondition [0] ∅ = true /\
  flag_is ∅ "flag_x" (VBool true) = false.
Proof. split; reflexivity. Qed.

(** ** Per-answer flags *)

Lemma pushFlagConfigs_filter (acc configs : list SetFlag) (fl : Flags) :
  pushFlagConfigs acc configs fl =
  acc ++ map pushedFlag
           (List.filter (fun flagConfig => flagConfigApplies flagConfig fl) configs).
Proof.
  revert acc. induction configs as [| fc configs IH]; intros acc; simpl.
  - now rewrite app_nil_r.
  - destruct (flagConfigApplies fc fl); rewrite IH; [| reflexivity].
    simpl. now rewrite <- app_assoc.
Qed.

Lemma answerFlagsLoop_flat_map (acc : list SetFlag)
    (table : gmap string AnswerFlagConfig) (sel : list Z) (fl : Flags) :
  answerFlagsLoop acc table sel fl = acc ++ flat_map (appliedFor table fl) sel.
Proof.
  revert acc. induction sel as [| idx sel IH]; intros acc; simpl.
  - now rewrite app_nil_r.
  - unfold appliedFor at 1.
    destruct (table !! pretty idx) as [cfg |]; [| apply IH].
    destruct (afc_set_flags cfg) as [configs |]; simpl; [| apply IH].
    rewrite IH, pushFlagConfigs_filter. now rewrite <- app_assoc.
Qed.

Lemma getAnswerFlags_flat_map (node : DecisionNode) (sel : list Z) (fl : Flags) :
  getAnswerFlags node sel fl =
  match answer_flags node with
  | Some table => flat_map (appliedFor table fl) sel
  | None => []
  end.
Proof.
  unfold getAnswerFlags. destruct (answer_flags node); [| reflexivity].
  apply answerFlagsLoop_flat_map.
Qed.

(** The guard of a flag entry passes exactly when all its nested
    condition entries hold, entries without flag-equality field holding
    by themselves. *)
Lemma flagConfigApplies_iff (fc : SetFlag) (fl : Flags) :
  flagConfigApplies fc fl = true <->
  forall cond, In cond (or_empty (condition fc)) -> flagEntryHolds fl cond.
Proof.
  unfold flagConfigApplies, flagEntryHolds.
  destruct (condition fc) as [conds |]; simpl.
  - assert (Hmet : conditionsMet conds fl = true <->
              forall cond, In cond conds ->
                match flag_equals cond with
                | Some fe => fl !! fe_flag_name fe = Some (fe_value fe)
                | None => True
                end).
    { unfold conditionsMet. rewrite forallb_forall.
      split; intros H cond Hin; specialize (H cond Hin);
        destruct (flag_equals cond); auto; now apply flag_is_true. }
    destruct conds as [| c conds]; [split; [intros _ cond [] | reflexivity] |].
    exact Hmet.
  - split; [intros _ cond [] | reflexivity].
Qed.



(** ** Hub resolution *)

Lemma applyHubFlags_eq (fl : Flags) (acc fs : list SetFlag) :
  applyHubFlags fl acc fs = (applyFlags fl fs, acc ++ fs).
Proof.
  unfold applyHubFlags, applyFlags. revert fl acc.
  induction fs as [| f fs IH]; intros fl acc; simpl.
  - now rewrite app_nil_r.
  - rewrite IH. now rewrite <- app_assoc.
Qed.

Section HubChains.

Variable decisionTree : DecisionTreeData.

Lemma hubLoop_stops (k : nat) (nodeId : string) (fl : Flags) (acc : list SetFlag) :
  hubStops decisionTree (nodeId, fl) ->
  hubLoop decisionTree k nodeId fl acc =
  {| finalNodeId := nodeId; accumulatedFlags := acc |}.
Proof.
  intros Hstop. destruct k as [| k]; [reflexivity |]. simpl.
  destruct Hstop as [Hend | [Hnone | (node & Hnode & Hwhy)]]; simpl in *.
  - subst nodeId. reflexivity.
  - destruct (String.eqb nodeId "END"); [reflexivity |]. now rewrite Hnone.
  - destruct (String.eqb nodeId "END"); [reflexivity |]. rewrite Hnode.
    destruct Hwhy as [Hhub | Hroute].
    + now rewrite Hhub.
    + destruct (negb (isHubNode node)); [reflexivity |]. now rewrite Hroute.
Qed.

(** The loop walks a chain of hops: what it returns is the end of a
    chain of at most [k] hops, which is shorter than [k] only where the
    loop breaks. *)
Lemma hubLoop_walks_chain (k : nat) (nodeId : string) (fl : Flags)
    (acc : list SetFlag) :
  exists n final fl' fs,
    (n <= k)%nat /\
    hubChain decisionTree n (nodeId, fl) fs (final, fl') /\
    hubLoop decisionTree k nodeId fl acc =
      {| finalNodeId := final; accumulatedFlags := acc ++ fs |} /\
    ((n < k)%nat -> hubStops decisionTree (final, fl')).
Proof.
  revert nodeId fl acc. induction k as [| k IH]; intros nodeId fl acc.
  - exists O, nodeId, fl, []. rewrite app_nil_r.
    repeat split; [lia | constructor | lia].
  - assert (Hhalt : hubStops decisionTree (nodeId, fl) ->
              exists n final fl' fs,
                (n <= S k)%nat /\
                hubChain decisionTree n (nodeId, fl) fs (final, fl') /\
                hubLoop decisionTree (S k) nodeId fl acc =
                  {| finalNodeId := final; accumulatedFlags := acc ++ fs |} /\
                ((n < S k)%nat -> hubStops decisionTree (final, fl'))).
    { intros Hstop. exists O, nodeId, fl, []. rewrite app_nil_r.
      repeat split; [lia | constructor | now apply hubLoop_stops | auto]. }
    destruct (String.eqb nodeId "END") eqn:Hend.
    { apply Hhalt. left. now apply String.eqb_eq in Hend. }
    destruct (nodes decisionTree !! nodeId) as [node |] eqn:Hnode.
    2: { apply Hhalt. right. left. exact Hnode. }
    destruct (isHubNode node) eqn:Hhub.
    2: { apply Hhalt. right. right. exists node. auto. }
    destruct (evaluateHubNode node fl) as [result |] eqn:Hroute.
    2: { apply Hhalt. right. right. exists node. auto. }
    destruct (IH (nextNodeId result) (applyFlags fl (flagsToSet result))
                (acc ++ flagsToSet result))
      as (n & final & fl' & fs & Hle & Hchain & Hloop & Hstop).
    exists (S n), final, fl', (flagsToSet result ++ fs).
    split; [lia |]. split; [| split].
    + eapply chain_hop; [| exact Hchain].
      apply (hub_hop decisionTree nodeId fl node result); auto.
      now apply String.eqb_neq.
    + simpl. rewrite Hend, Hnode, Hhub, Hroute. simpl.
      rewrite applyHubFlags_eq. simpl. rewrite Hloop.
      now rewrite <- app_assoc.
    + intros Hlt. apply Hstop. lia.
Qed.

(** Conversely a chain that fills the rounds, or ends where the loop
    breaks, is the one the loop walks. *)
Lemma hubChain_is_walked (n : nat) (s s' : string * Flags) (fs : list SetFlag) :
  hubChain decisionTree n s fs s' ->
  forall (k : nat) (acc : list SetFlag),
    (n <= k)%nat ->
    (n = k \/ hubStops decisionTree s') ->
    hubLoop decisionTree k (fst s) (snd s) acc =
    {| finalNodeId := fst s'; accumulatedFlags := acc ++ fs |}.
Proof.
  induction 1 as [s | n s1 f1 s2 f2 s3 Hhop Hchain IH]; intros k acc Hle Hend.
  - rewrite app_nil_r. destruct Hend as [<- | Hstop]; [reflexivity |].
    destruct s as [nodeId fl]. now apply hubLoop_stops.
  - destruct k as [| k]; [lia |].
    destruct Hhop as [nodeId fl node result Hne Hnode Hhub Hroute]. simpl.
    apply String.eqb_neq in Hne. rewrite Hne, Hnode, Hhub, Hroute. simpl.
    rewrite applyHubFlags_eq. simpl.
    specialize (IH k (acc ++ flagsToSet result)). simpl in IH.
    rewrite IH.
    + now rewrite <- app_assoc.
    + lia.
    + destruct Hend as [Heq | Hstop]; [left; lia | now right].
Qed.

(** C7. From every start node and flags map [processHubNodes] returns
    after a chain of at most 50 hops: each hop leaves a hub that is not
    the terminal id along its first matching route, evaluated on the
    flags merged so far, and the flags of all hops are accumulated in
    order; the chain is shorter than 50 only where the node reached is
    the terminal id, is absent, is not a hub, or has no matching
    route. *)
Theorem processHubNodes_bounded (startNodeId : string) (fl : Flags) :
  exists n fl',
    (n <= 50)%nat /\
    hubChain decisionTree n (startNodeId, fl)
      (accumulatedFlags (processHubNodes decisionTree startNodeId fl))
      (finalNodeId (processHubNodes decisionTree startNodeId fl), fl') /\
    ((n < 50)%nat ->
     hubStops decisionTree
       (finalNodeId (processHubNodes decisionTree startNodeId fl), fl')).
Proof.
  unfold processHubNodes.
  destruct (hubLoop_walks_chain maxIterations startNodeId fl [])
    as (n & final & fl' & fs & Hle & Hchain & Hloop & Hstop).
  rewrite Hloop. simpl. exists n, fl'. auto.
Qed.

(** C8, as the code has it. When 50 hops can be made from the start
    node, [processHubNodes] returns the node reached by the 50th hop and
    the flags of these hops, and nothing else: the result has no field
    or value that tells the cap was reached. *)
Theorem processHubNodes_cap_silent (startNodeId : string) (fl : Flags)
    (acc : list SetFlag) (final : string) (fl' : Flags) :
  hubChain decisionTree 50 (startNodeId, fl) acc (final, fl') ->
  processHubNodes decisionTree startNodeId fl =
  {| finalNodeId := final; accumulatedFlags := acc |}.
Proof.
  intros Hchain. unfold processHubNodes.
  apply (hubChain_is_walked _ _ _ _ Hchain maxIterations []); [reflexivity |].
  left. reflexivity.
Qed.

End HubChains.

(** The second hub of [twoHubTree] sees the flag the first one set. *)
Example later_hop_sees_earlier_flag :
  processHubNodes twoHubTree "H1" ∅ =
  {| finalNodeId := "Q_seen"; accumulatedFlags := [seenFlag] |}.
Proof. vm_compute. reflexivity. Qed.

Lemma loop_hop : hubHop loopTree ("H", loopFlags) [] ("H", loopFlags).
Proof.
  apply (hub_hop loopTree "H" loopFlags loopHub
           {| nextNodeId := "H"; flagsToSet := [] |}).
  - discriminate.
  - reflexivity.
  - reflexivity.
  - vm_compute. reflexivity.
Qed.

Lemma loop_chain (n : nat) :
  hubChain loopTree n ("H", loopFlags) [] ("H", loopFlags).
Proof.
  induction n as [| n IH]; [constructor |].
  exact (chain_hop loopTree n _ [] _ [] _ loop_hop IH).
Qed.

Lemma processHubNodes_cap_silent_witness :
  processHubNodes loopTree "H" loopFlags =
  {| finalNodeId := "H"; accumulatedFlags := [] |}.
Proof.
  apply (processHubNodes_cap_silent loopTree "H" loopFlags [] "H" loopFlags).
  apply loop_chain.
Defined.

(** C8, as stated, fails. Were the cap reported to the caller, the caller
    could tell from what [processHubNodes] returns whether the cap was
    reached. On [loopTree] it cannot: with [loop] set the hub is left 50
    times and the cap is reached, without the flag the first round finds
    no route, and both calls return the same node and flags. *)
Lemma cap_not_reported :
  ~ exists report : HubResult -> bool,
      forall fl : Flags,
        report (processHubNodes loopTree "H" fl) = true <->
        capReached loopTree "H" fl.
Proof.
  intros [report Hreport].
  assert (Hcap : capReached loopTree "H" loopFlags).
  { exists [], "H", loopFlags, loopHub.
    split; [apply loop_chain |]. split; [discriminate |].
    split; reflexivity. }
  apply Hreport in Hcap.
  assert (Hsame : processHubNodes loopTree "H" loopFlags =
                  processHubNodes loopTree "H" ∅).
  { vm_compute. reflexivity. }
  rewrite Hsame in Hcap. apply Hreport in Hcap.
  destruct Hcap as (acc & final & fl & node & Hchain & _).
  unfold maxIterations in Hchain.
  inversion Hchain as [| n s1 f1 s2 f2 s3 Hhop _]; subst.
  inversion Hhop as [nodeId fl0 node0 result _ Hnode _ Hroute]; subst.
  change (nodes loopTree !! "H") with (Some loopHub) in Hnode.
  injection Hnode as <-. vm_compute in Hroute. discriminate.
Qed.

(** ** Validation *)

Lemma checkBounds_boundErrors (errs : list string) (sel : list Z)
    (rule : option ValidationRule) :
  checkBounds errs sel rule = errs ++ boundErrors sel rule.
Proof.
  unfold checkBounds, boundErrors, truthy_num, len.
  destruct rule as [r |]; [| now rewrite app_nil_r].
  assert (Hmin : (negb (min_selections r =? 0) &&
                  (Z.of_nat (length sel) <? min_selections r))%bool =
                 (Z.of_nat (length sel) <? min_selections r)).
  { destruct (Z.ltb_spec (Z.of_nat (length sel)) (min_selections r)) as [Hlt | Hge].
    - rewrite andb_true_r. apply negb_true_iff, Z.eqb_neq. lia.
    - apply andb_false_r. }
  rewrite Hmin.
  destruct (Z.of_nat (length sel) <? min_selections r);
    destruct (max_selections r) as [m |]; simpl;
    try destruct (negb (m =? 0) && (m <? Z.of_nat (length sel)))%bool;
    simpl; rewrite <- ?app_assoc, ?app_nil_r; reflexivity.
Qed.

Lemma exclusiveSelected_needs_option (q : Question) (sel : list Z) :
  exclusiveSelected q sel = true -> (0 <? len (exclusiveOptions q)) = true.
Proof.
  unfold exclusiveSelected. intros H.
  apply existsb_exists in H as [ans [_ H]].
  apply existsb_exists in H as [opt [Hin _]].
  unfold len. destruct (exclusiveOptions q); [destruct Hin | reflexivity].
Qed.

(** The checks of [validateAnswer] in the order of the code and in the
    code's own tests, for every question and rule: the bounds as
    [checkBounds] tests them, exclusivity as [exclusiveSelected] does. *)
Lemma validateAnswer_by_cases (q : Question) (sel : list Z)
    (rule : option ValidationRule) :
  validateAnswer q sel rule =
    (if required q && (len sel =? 0) then invalid [msg_required]
     else if bool_decide (q_type q = single_choice) && (1 <? len sel)
     then invalid [msg_single]
     else if exclusiveSelected q sel && (1 <? len sel)
     then invalid (boundErrors sel rule ++ [msg_exclusive])
     else {| isValid := bool_decide (boundErrors sel rule = []);
             errors := boundErrors sel rule |}) /\
  (isValid (validateAnswer q sel rule) = true <->
   errors (validateAnswer q sel rule) = []).
Proof.
  assert (Hnil : forall l : list string, (len l =? 0) = bool_decide (l = [])).
  { intros [| x l]; reflexivity. }
  assert (Hsnoc : forall (l : list string) x, l ++ [x] <> []).
  { intros [| y l] x; discriminate. }
  unfold validateAnswer, invalid.
  destruct (required q && (len sel =? 0))%bool.
  { split; [reflexivity |]. simpl. split; discriminate. }
  destruct (q_type q) eqn:Htype; simpl.
  - destruct (1 <? len sel).
    + split; [reflexivity |]. simpl. split; discriminate.
    + rewrite !andb_false_r. rewrite checkBounds_boundErrors, Hnil. simpl.
      split; [reflexivity |]. simpl. apply bool_decide_eq_true.
  - rewrite checkBounds_boundErrors. simpl.
    destruct (exclusiveSelected q sel) eqn:Hexcl.
    + rewrite (exclusiveSelected_needs_option q sel Hexcl). simpl.
      destruct (1 <? len sel); simpl.
      * split; [reflexivity |]. split; [discriminate |].
        intros H. now apply Hsnoc in H.
      * rewrite Hnil. split; [reflexivity |]. simpl. apply bool_decide_eq_true.
    + rewrite andb_false_r. simpl. rewrite Hnil.
      split; [reflexivity |]. simpl. apply bool_decide_eq_true.
Qed.

(** C3, as stated, fails: with a selected index that is marked exclusive
    among several selected on a multiple-choice question, the result
    need not be the exclusivity error alone. On [sampleQuestion], whose
    index 2 is exclusive, with the rule of at most one selection, the
    selection [[0, 2]] yields the bound error and then the exclusivity
    error. *)
Lemma validate_exclusive_not_single :
  ~ (forall (q : Question) (sel : list Z) (rule : option ValidationRule),
       q_type q = multiple_choice ->
       existsb (isExclusiveOption q) sel = true -> 1 < len sel ->
       errors (validateAnswer q sel rule) = [msg_exclusive]).
Proof.
  intros H.
  specialize (H sampleQuestion [0; 2] (Some sampleRule) eq_refl eq_refl eq_refl).
  vm_compute in H. discriminate.
Qed.

Example validate_exclusive_two_errors :
  validateAnswer sampleQuestion [0; 2] (Some sampleRule) =
  invalid [msg_max 1; msg_exclusive].
Proof. vm_compute. reflexivity. Qed.

(** ** Selection toggling *)

Lemma truthy_flag_true (b : option bool) :
  truthy_flag b = bool_decide (b = Some true).
Proof. destruct b as [[|] |]; reflexivity. Qed.

(** The indices collected by the map-and-filter are those at which an
    exclusive option stands. *)
Lemma exclusiveIndices_isExclusive (q : Question) (x : Z) :
  includes (exclusiveIndices q) x = isExclusiveOption q x.
Proof.
  apply eq_true_iff_eq. rewrite includes_In.
  unfold exclusiveIndices. rewrite filter_In, <- list_elem_of_In.
  rewrite elem_of_lookup_imap, negb_true_iff, Z.eqb_neq.
  unfold isExclusiveOption, optionAt. split.
  - intros [(i & opt & Hx & Hopt) Hne].
    rewrite truthy_flag_true in Hx.
    destruct (bool_decide (exclusive opt = Some true)) eqn:Hex; [| congruence].
    subst x. destruct (Z.ltb_spec (Z.of_nat i) 0) as [? | _]; [lia |].
    now rewrite Nat2Z.id, Hopt.
  - destruct (Z.ltb_spec x 0) as [? | Hpos]; [discriminate |].
    destruct (options q !! Z.to_nat x) as [opt |] eqn:Hopt; [| discriminate].
    intros Hex. split; [| lia].
    exists (Z.to_nat x), opt. split; [| assumption].
    rewrite truthy_flag_true, Hex. lia.
Qed.

(** C4. On a single-choice question toggling a selected index empties
    the selection and toggling another index selects it alone. On a
    multiple-choice question toggling a selected index removes it;
    toggling an unselected exclusive index selects it alone; toggling an
    unselected index that is not exclusive removes the exclusive indices
    from the selection and appends the index. *)
Theorem handleSelectionWithExclusivity_spec (q : Question) (cur : list Z) (t : Z) :
  handleSelectionWithExclusivity q cur t =
  match q_type q with
  | single_choice => if includes cur t then [] else [t]
  | multiple_choice =>
      if includes cur t then List.filter (fun x => negb (x =? t)) cur
      else if isExclusiveOption q t then [t]
      else List.filter (fun x => negb (isExclusiveOption q x)) cur ++ [t]
  end.
Proof.
  unfold handleSelectionWithExclusivity.
  destruct (q_type q); [reflexivity |].
  destruct (includes cur t); [reflexivity |].
  destruct (isExclusiveOption q t); [reflexivity |].
  f_equal. apply filter_ext. intros x.
  now rewrite exclusiveIndices_isExclusive.
Qed.

Example toggle_single_choice :
  handleSelectionWithExclusivity radioQuestion [1] 1 = [] /\
  handleSelectionWithExclusivity radioQuestion [1] 2 = [2].
Proof. split; reflexivity. Qed.

Example toggle_exclusive :
  handleSelectionWithExclusivity checkboxQuestion [1; 2] 5 = [5] /\
  handleSelectionWithExclusivity checkboxQuestion [5] 3 = [3] /\
  handleSelectionWithExclusivity checkboxQuestion [1; 2] 1 = [2].
Proof. repeat split; reflexivity. Qed.

(** Where the ids of the options are their positions, the test of
    [validateAnswer] by option id is the test by index. *)
Lemma exclusiveSelected_by_index (q : Question) (sel : list Z) :
  idsArePositions q ->
  exclusiveSelected q sel = existsb (isExclusiveOption q) sel.
Proof.
  intros Hids. unfold exclusiveSelected.
  induction sel as [| ans sel IH]; simpl; [reflexivity |].
  rewrite IH. f_equal. clear IH.
  apply eq_true_iff_eq. rewrite existsb_exists.
  unfold isExclusiveOption, optionAt, exclusiveOptions. split.
  - intros (opt & Hin & Heq). apply filter_In in Hin as [Hin Hex].
    apply list_elem_of_In, list_elem_of_lookup in Hin as [i Hi].
    rewrite (Hids i opt Hi) in Heq. apply Z.eqb_eq in Heq. subst ans.
    destruct (Z.ltb_spec (Z.of_nat i) 0) as [? | _]; [lia |].
    rewrite Nat2Z.id, Hi. now rewrite <- truthy_flag_true.
  - destruct (Z.ltb_spec ans 0) as [? | Hpos]; [discriminate |].
    destruct (options q !! Z.to_nat ans) as [opt |] eqn:Hopt; [| discriminate].
    intros Hex. exists opt. split.
    + apply filter_In. split.
      * apply list_elem_of_In, list_elem_of_lookup. eauto.
      * now rewrite truthy_flag_true.
    + rewrite (Hids _ opt Hopt). apply Z.eqb_eq. lia.
Qed.

Lemma boundErrors_violations (sel : list Z) (rule : option ValidationRule) :
  maxNotZero rule -> boundErrors sel rule = boundViolations sel rule.
Proof.
  intros Hmax. unfold boundErrors, boundViolations.
  destruct rule as [r |]; [| reflexivity].
  destruct (max_selections r) as [m |] eqn:Hm; [| reflexivity].
  specialize (Hmax r m eq_refl Hm). apply Z.eqb_neq in Hmax.
  now rewrite Hmax.
Qed.

(** C3, amended. The checks run in order. (1) Required and empty, then
    (2) single choice with more than one selection, each end the
    validation with a single error. (3) Otherwise the violations of the
    min and max bounds of the rule accumulate. When then a selected index
    is marked exclusive while more than one index is selected, the
    validation ends at once, invalid, with the exclusivity error after
    the accumulated ones, which are kept; otherwise the accumulated
    errors are the result. The result is valid exactly when it has no
    error. Stated where the ids of the options are their positions and a
    given [max_selections] is not 0. *)
Theorem validateAnswer_checks_in_order (q : Question) (sel : list Z)
    (rule : option ValidationRule) :
  idsArePositions q ->
  maxNotZero rule ->
  validateAnswer q sel rule =
    (if required q && (len sel =? 0) then invalid [msg_required]
     else if bool_decide (q_type q = single_choice) && (1 <? len sel)
     then invalid [msg_single]
     else if existsb (isExclusiveOption q) sel && (1 <? len sel)
     then invalid (boundViolations sel rule ++ [msg_exclusive])
     else {| isValid := bool_decide (boundViolations sel rule = []);
             errors := boundViolations sel rule |}) /\
  (isValid (validateAnswer q sel rule) = true <->
   errors (validateAnswer q sel rule) = []).
Proof.
  intros Hids Hmax.
  destruct (validateAnswer_by_cases q sel rule) as [Hcases Hvalid].
  split; [| exact Hvalid].
  rewrite Hcases, (exclusiveSelected_by_index q sel Hids).
  now rewrite (boundErrors_violations sel rule Hmax).
Qed.

Lemma sampleQuestion_ids : idsArePositions sampleQuestion.
Proof.
  intros i opt Hopt. simpl in Hopt.
  do 3 (destruct i as [| i]; [injection Hopt as <-; reflexivity |]).
  discriminate.
Qed.

Lemma validateAnswer_checks_in_order_witness :
  validateAnswer sampleQuestion [0; 2] (Some sampleRule) =
  invalid (boundViolations [0; 2] (Some sampleRule) ++ [msg_exclusive]).
Proof.
  refine (proj1 (validateAnswer_checks_in_order sampleQuestion [0; 2]
                   (Some sampleRule) sampleQuestion_ids _)).
  intros r m [= <-] [= <-]. discriminate.
Defined.

(** The two hypotheses mark where the tests of the code are not those of
    the wording. A [max_selections] of 0 is passed over, being falsy:
    two selections are valid under it. *)
Example zero_max_passed_over :
  validateAnswer sampleQuestion [0; 1] (Some zeroMaxRule) =
  {| isValid := true; errors := [] |}.
Proof. vm_compute. reflexivity. Qed.

(** And exclusivity is tested on the parsed ids of the options, whereas
    [isExclusiveOption] goes by position: on [shiftedQuestion] index 0
    is exclusive, yet selecting it with index 1 is valid. *)
Example exclusive_tested_by_id :
  isExclusiveOption shiftedQuestion 0 = true /\
  validateAnswer shiftedQuestion [0; 1] None =
  {| isValid := true; errors := [] |}.
Proof. split; vm_compute; reflexivity. Qed.

(** ** Wizard state *)

Lemma map_removelast {A B : Type} (f : A -> B) (l : list A) :
  map f (removelast l) = removelast (map f l).
Proof.
  induction l as [| a [| b l] IH]; [reflexivity | reflexivity |].
  change (f a :: map f (removelast (b :: l)) =
          f a :: removelast (map f (b :: l))).
  now rewrite IH.
Qed.

Section WizardStateProps.

Variable decisionTree : DecisionTreeData.

(** The visited-node history runs parallel to the undo stack. *)
Lemma history_parallel (st : WizardStore) :
  reachable decisionTree st ->
  history (state st) = map nodeId (historyStack st).
Proof.
  induction 1 as [| n st _ IH | q sel st _ IH | fs st _ IH
                  | n sel fl st _ IH | st _ IH | st _ IH | st _ IH];
    simpl; try assumption; try reflexivity.
  - rewrite IH, map_app. reflexivity.
  - unfold goBack. destruct (last (historyStack st)); simpl; [| assumption].
    rewrite IH. symmetry. apply map_removelast.
Qed.

(** C5. In a store a session can reach: with an empty undo stack
    [goBack] returns false and the store as it was; otherwise it
    returns true, takes the last snapshot off the stack, makes that
    snapshot's node the current node and its flags the flags, drops the
    last entry of the visited-node history (the history was the result
    followed by one entry), and clears the completion flag; the answers
    stay. *)
Theorem goBack_spec (st : WizardStore) :
  reachable decisionTree st ->
  (historyStack st = [] -> goBack st = (false, st)) /\
  (forall (rest : list HistoryEntry) (previousEntry : HistoryEntry),
     historyStack st = rest ++ [previousEntry] ->
     goBack st =
       (true,
        {| state := {| currentNodeId := nodeId previousEntry;
                       answers := answers (state st);
                       flags := entry_flags previousEntry;
                       history := map nodeId rest;
                       isComplete := false |};
           historyStack := rest |}) /\
     history (state st) = map nodeId rest ++ [nodeId previousEntry]).
Proof.
  intros Hreach. pose proof (history_parallel st Hreach) as Hpar.
  unfold goBack. split.
  - intros ->. reflexivity.
  - intros rest previousEntry Hstack.
    rewrite Hpar, Hstack, last_snoc, map_app. simpl.
    rewrite !removelast_last. split; reflexivity.
Qed.

End WizardStateProps.

Lemma goBack_spec_witness :
  goBack (addToHistory "H" [0] ∅ (initialStore loopTree)) =
  (true, initialStore loopTree).
Proof.
  destruct (goBack_spec loopTree
              (addToHistory "H" [0] ∅ (initialStore loopTree))
              (reach_addToHistory loopTree "H" [0] ∅ _
                 (reach_initial loopTree)))
    as [_ Hpop].
  destruct (Hpop [] sampleEntry eq_refl) as [Hback _].
  exact Hback.
Defined.

Example goBack_empty_history (tree : DecisionTreeData) :
  goBack (initialStore tree) = (false, initialStore tree).
Proof. reflexivity. Qed.

(** ** Outcome grouping *)

Lemma pushOutcome_bucket (g : GroupedOutcomes) (o : Outcome) (level : StructureLevel) :
  bucket (pushOutcome g o) level =
  bucket g level ++ (if hasLevel level o then [o] else []).
Proof.
  unfold pushOutcome, hasLevel.
  destruct (structure_level o), level; simpl;
    rewrite ?app_nil_r; reflexivity.
Qed.

(** The pushing loop fills each bucket with the outcomes of its level,
    in input order. *)
Lemma fold_pushOutcome_bucket (outs : list Outcome) (g : GroupedOutcomes)
    (level : StructureLevel) :
  bucket (fold_left pushOutcome outs g) level =
  bucket g level ++ List.filter (hasLevel level) outs.
Proof.
  revert g. induction outs as [| o outs IH]; intros g; simpl.
  - now rewrite app_nil_r.
  - rewrite IH, pushOutcome_bucket, <- app_assoc.
    destruct (hasLevel level o); reflexivity.
Qed.

Section Sorting.

Context {A : Type} (compareFn : A -> A -> Z).

Lemma sort_insert_Permutation (x : A) (l : list A) :
  Permutation (sort_insert compareFn x l) (x :: l).
Proof.
  induction l as [| y l IH]; simpl; [reflexivity |].
  destruct (compareFn x y <=? 0); [reflexivity |].
  rewrite IH. apply perm_swap.
Qed.

Lemma array_sort_Permutation (l : list A) :
  Permutation (array_sort compareFn l) l.
Proof.
  induction l as [| x l IH]; simpl; [reflexivity |].
  rewrite sort_insert_Permutation. now apply perm_skip.
Qed.

End Sorting.

Lemma sort_insert_descending (x : Outcome) (l : list Outcome) :
  weightDescending l -> weightDescending (sort_insert byWeightDesc x l).
Proof.
  unfold weightDescending.
  induction 1 as [| y l Hsorted IH Hy]; simpl.
  - repeat constructor.
  - unfold byWeightDesc at 1.
    destruct (Z.leb_spec (priority_weight y - priority_weight x) 0) as [Hle | Hgt].
    + constructor; [now constructor |].
      constructor; [lia |].
      eapply List.Forall_impl; [| exact Hy]. simpl. intros b Hb. lia.
    + constructor; [exact IH |].
      eapply Permutation_Forall.
      * symmetry. apply sort_insert_Permutation.
      * constructor; [lia | exact Hy].
Qed.

Lemma array_sort_descending (l : list Outcome) :
  weightDescending (array_sort byWeightDesc l).
Proof.
  induction l as [| x l IH]; simpl; [constructor |].
  now apply sort_insert_descending.
Qed.

(** Insertion leaves the outcomes of one weight in their order. *)
Lemma sort_insert_stable (w : Z) (x : Outcome) (l : list Outcome) :
  List.filter (hasWeight w) (sort_insert byWeightDesc x l) =
  List.filter (hasWeight w) (x :: l).
Proof.
  induction l as [| y l IH]; [reflexivity |].
  cbn [sort_insert]. unfold byWeightDesc at 1.
  destruct (Z.leb_spec (priority_weight y - priority_weight x) 0) as [Hle | Hgt];
    [reflexivity |].
  cbn [List.filter] in *. rewrite IH. unfold hasWeight.
  destruct (Z.eqb_spec (priority_weight x) w), (Z.eqb_spec (priority_weight y) w);
    try reflexivity. lia.
Qed.

Lemma array_sort_stable (w : Z) (l : list Outcome) :
  List.filter (hasWeight w) (array_sort byWeightDesc l) =
  List.filter (hasWeight w) l.
Proof.
  induction l as [| x l IH]; [reflexivity |].
  cbn [array_sort fold_right].
  change (fold_right (sort_insert byWeightDesc) [] l)
    with (array_sort byWeightDesc l).
  rewrite sort_insert_stable. cbn [List.filter]. now rewrite IH.
Qed.

Lemma groupOutcomesByLevel_bucket (outs : list Outcome) (level : StructureLevel) :
  bucket (groupOutcomesByLevel outs) level =
  array_sort byWeightDesc (List.filter (hasLevel level) outs).
Proof.
  unfold groupOutcomesByLevel.
  pose proof (fold_pushOutcome_bucket outs
                {| role := []; risk_level := []; obligation := [] |} level)
    as Hfill.
  destruct level; simpl in *; now rewrite Hfill.
Qed.

(** C6. [groupOutcomesByLevel] returns the three buckets role,
    risk_level and obligation. An outcome is in the bucket of a level
    exactly when it is in the input and has that level, and the bucket
    holds the input's outcomes of the level as often as the input does.
    Each bucket is in descending order of priority weight, and outcomes
    of equal weight keep the order they have in the input. *)
Theorem groupOutcomesByLevel_spec (outs : list Outcome) (level : StructureLevel) :
  let b := bucket (groupOutcomesByLevel outs) level in
  (forall o, In o b <-> In o outs /\ structure_level o = level) /\
  Permutation b (List.filter (hasLevel level) outs) /\
  weightDescending b /\
  (forall w, List.filter (hasWeight w) b =
             List.filter (hasWeight w) (List.filter (hasLevel level) outs)).
Proof.
  cbv zeta. rewrite groupOutcomesByLevel_bucket.
  pose proof (array_sort_Permutation byWeightDesc
                (List.filter (hasLevel level) outs)) as Hperm.
  split; [| split; [exact Hperm | split]].
  - intros o. split.
    + intros Hin. apply (Permutation_in _ Hperm), filter_In in Hin.
      destruct Hin as [Hin Hlevel]. split; [assumption |].
      now apply bool_decide_eq_true in Hlevel.
    + intros [Hin Hlevel]. apply (Permutation_in _ (Permutation_sym Hperm)).
      apply filter_In. split; [assumption |]. now apply bool_decide_eq_true.
  - apply array_sort_descending.
  - intros w. apply array_sort_stable.
Qed.

Example group_scenario :
  let a := sampleOutcome "a" L_role 5 in
  let b := sampleOutcome "b" L_risk_level 50 in
  let c := sampleOutcome "c" L_risk_level 10 in
  groupOutcomesByLevel [a; c; b] =
  {| role := [a]; risk_level := [b; c]; obligation := [] |}.
Proof. reflexivity. Qed.

Example group_ties_keep_order :
  let a := sampleOutcome "a" L_obligation 10 in
  let b := sampleOutcome "b" L_obligation 50 in
  let c := sampleOutcome "c" L_obligation 10 in
  let d := sampleOutcome "d" L_obligation 50 in
  obligation (groupOutcomesByLevel [a; b; c; d]) = [b; d; a; c].
Proof. reflexivity. Qed.

(** * Further properties *)

(** ** Flags *)

Lemma applyFlags_snoc (fl : Flags) (fs : list SetFlag) (f : SetFlag) :
  applyFlags fl (fs ++ [f]) = <[flag_name f := value f]> (applyFlags fl fs).
Proof. unfold applyFlags. now rewrite fold_left_app. Qed.

Lemma applyFlags_app (fl : Flags) (fs gs : list SetFlag) :
  applyFlags fl (fs ++ gs) = applyFlags (applyFlags fl fs) gs.
Proof. unfold applyFlags. apply fold_left_app. Qed.

Lemma applyFlags_lookup (fl : Flags) (fs : list SetFlag) (k : string) :
  applyFlags fl fs !! k =
  match lastSetting k fs with
  | Some f => Some (value f)
  | None => fl !! k
  end.
Proof.
  unfold lastSetting.
  induction fs as [| f fs IH] using rev_ind; [reflexivity |].
  rewrite applyFlags_snoc, rev_app_distr. simpl.
  destruct (String.eqb_spec (flag_name f) k) as [-> | Hne].
  - apply lookup_insert_eq.
  - rewrite lookup_insert_ne by assumption. exact IH.
Qed.

(** X1. After [applyFlags] a flag has the value of the last entry of the
    list that names it, and its former value if no entry names it. *)
Theorem applyFlags_last_write_wins (fl : Flags) (fs : list SetFlag) (k : string) :
  applyFlags fl fs !! k =
  match lastSetting k fs with
  | Some f => Some (value f)
  | None => fl !! k
  end.
Proof. apply applyFlags_lookup. Qed.

Lemma fromEntries_snoc (l : list (string * FlagValue)) (kv : string * FlagValue) :
  fromEntries (l ++ [kv]) = <[fst kv := snd kv]> (fromEntries l).
Proof. unfold fromEntries. now rewrite fold_left_app. Qed.

Lemma spread_fromEntries (fl : Flags) (fs : list SetFlag) :
  spread fl (fromEntries (flagEntries fs)) = applyFlags fl fs.
Proof.
  unfold spread, flagEntries.
  induction fs as [| f fs IH] using rev_ind.
  - apply (left_id_L ∅ (∪)).
  - rewrite map_app, applyFlags_snoc. simpl.
    rewrite fromEntries_snoc. simpl.
    rewrite <- insert_union_l. now rewrite IH.
Qed.

(** X2. The object literal the wizard builds, the former flags with the
    entries of a flag list spread over them, is the map [applyFlags]
    computes from the same flags and list. *)
Theorem spread_entries_is_applyFlags (fl : Flags) (fs : list SetFlag) :
  spread fl (fromEntries (flagEntries fs)) = applyFlags fl fs.
Proof. apply spread_fromEntries. Qed.

(** ** Routing, continued *)

(** X3. A node with a route that has no condition, a default route,
    always routes: [evaluateRouting] does not return null on it. *)
Theorem default_route_never_null (node : DecisionNode) (sel : list Z) (fl : Flags)
    (route : Route) :
  In route (routing node) ->
  or_empty (conditions route) = [] ->
  exists res, evaluateRouting node sel fl = Some res.
Proof.
  intros Hin Hdefault. unfold evaluateRouting.
  destruct (firstMatchingRoute (routing node) sel fl) as [res |] eqn:Hres;
    [now exists res |].
  apply firstMatchingRoute_None in Hres.
  rewrite List.Forall_forall in Hres. destruct (Hres route Hin).
  unfold routeMatches. rewrite Hdefault. intros cond [].
Qed.

Lemma default_route_never_null_witness :
  exists res, evaluateRouting secondHub [3] ∅ = Some res.
Proof.
  apply (default_route_never_null secondHub [3] ∅
           {| conditions := None; go_to := "Q_unseen"; set_flags := None |}).
  - simpl. auto.
  - reflexivity.
Defined.

(** X4. An any-in condition holds exactly when the selection shares an
    index with its list, a none-in condition exactly when it shares
    none; on the same list each is the negation of the other. *)
Theorem any_in_none_in_semantics (l sel : list Z) (fl : Flags) :
  (evaluateCondition (anyIn l) sel fl = true <->
   exists x, In x l /\ In x sel) /\
  (evaluateCondition (noneIn l) sel fl = true <->
   forall x, In x l -> ~ In x sel) /\
  evaluateCondition (noneIn l) sel fl = negb (evaluateCondition (anyIn l) sel fl).
Proof.
  assert (Hany : evaluateCondition (anyIn l) sel fl = true <->
                 exists x, In x l /\ In x sel).
  { unfold evaluateCondition. simpl. rewrite existsb_exists.
    split; intros (x & Hx & Hs); exists x; split; auto; now apply includes_In. }
  split; [exact Hany |]. split; [| reflexivity].
  change (evaluateCondition (noneIn l) sel fl)
    with (negb (evaluateCondition (anyIn l) sel fl)).
  rewrite negb_true_iff, <- not_true_iff_false, Hany. split.
  - intros Hnone x Hx Hs. apply Hnone. eauto.
  - intros Hall (x & Hx & Hs). exact (Hall x Hx Hs).
Qed.

Lemma find_app_l {A : Type} (p : A -> bool) (l1 l2 : list A) (g : A) :
  In g l1 -> p g = true -> List.find p (l1 ++ l2) = List.find p l1.
Proof.
  induction l1 as [| h l1 IH]; intros Hin Hp; [destruct Hin |].
  simpl. destruct (p h) eqn:Hh; [reflexivity |].
  destruct Hin as [-> | Hin]; [congruence | now apply IH].
Qed.

Lemma lastSetting_app_r (k : string) (fs gs : list SetFlag) (g : SetFlag) :
  In g gs -> flag_name g = k ->
  lastSetting k (fs ++ gs) = lastSetting k gs.
Proof.
  intros Hin Hname. unfold lastSetting. rewrite rev_app_distr.
  apply (find_app_l _ _ _ g); [now apply in_rev in Hin |].
  now apply String.eqb_eq.
Qed.

(** X5. Of the flags [getAllFlagsForAnswer] collects, those of the
    matching route come last: once the list is applied, a flag the route
    sets has the value the route gives it, whatever the per-answer flags
    and the former flags say. *)
Theorem route_flags_override_answer_flags (node : DecisionNode) (sel : list Z)
    (fl other : Flags) (res : RoutingResult) (f : SetFlag) :
  evaluateRouting node sel fl = Some res ->
  In f (flagsToSet res) ->
  applyFlags fl (getAllFlagsForAnswer node sel fl) !! flag_name f =
  applyFlags other (flagsToSet res) !! flag_name f.
Proof.
  intros Hres Hin. unfold getAllFlagsForAnswer. rewrite Hres.
  rewrite !applyFlags_lookup.
  rewrite (lastSetting_app_r (flag_name f) _ _ f Hin eq_refl).
  destruct (lastSetting (flag_name f) (flagsToSet res)) as [g |] eqn:Hlast;
    [reflexivity |].
  unfold lastSetting in Hlast.
  apply in_rev in Hin.
  pose proof (find_none _ _ Hlast f Hin) as Hcontra. simpl in Hcontra.
  now rewrite String.eqb_refl in Hcontra.
Qed.

Lemma route_flags_override_answer_flags_witness :
  applyFlags ∅ (getAllFlagsForAnswer overrideNode [0] ∅) !! "flag_a" =
  Some (VString "route").
Proof.
  exact (route_flags_override_answer_flags overrideNode [0] ∅ ∅
           {| nextNodeId := "END"; flagsToSet := [routeSetting] |}
           routeSetting eq_refl (or_introl eq_refl)).
Defined.

(** X6. [getAnswerFlags] returns a flag only for an entry of the
    configuration of a selected answer whose nested flag-equality
    entries all hold on the current flags, and it returns each such
    entry, reduced to name and value. *)
Theorem getAnswerFlags_origin (node : DecisionNode) (sel : list Z) (fl : Flags)
    (f : SetFlag) :
  In f (getAnswerFlags node sel fl) <->
  exists table answerIndex answerConfig configs flagConfig,
    answer_flags node = Some table /\
    In answerIndex sel /\
    table !! pretty answerIndex = Some answerConfig /\
    afc_set_flags answerConfig = Some configs /\
    In flagConfig configs /\
    (forall cond, In cond (or_empty (condition flagConfig)) ->
       flagEntryHolds fl cond) /\
    f = {| flag_name := flag_name flagConfig; value := value flagConfig;
           condition := None |}.
Proof.
  rewrite getAnswerFlags_flat_map. split.
  - destruct (answer_flags node) as [table |]; [| intros []].
    intros Hin. apply in_flat_map in Hin as (idx & Hsel & Hin).
    unfold appliedFor in Hin.
    destruct (table !! pretty idx) as [cfg |] eqn:Hcfg; [| destruct Hin].
    apply in_map_iff in Hin as (fc & <- & Hin).
    apply filter_In in Hin as [Hin Hok].
    destruct (afc_set_flags cfg) as [configs |] eqn:Hconfigs; [| destruct Hin].
    exists table, idx, cfg, configs, fc.
    repeat split; auto. now apply flagConfigApplies_iff.
  - intros (table & idx & cfg & configs & fc & -> & Hsel & Hcfg & Hconfigs
            & Hin & Hok & ->).
    apply in_flat_map. exists idx. split; [assumption |].
    unfold appliedFor. rewrite Hcfg, Hconfigs.
    apply (in_map pushedFlag), filter_In. split; [assumption |].
    now apply flagConfigApplies_iff.
Qed.

(** X7. The per-answer flags of a selection are those of its parts, one
    after the other: the guards of every selected answer are judged on
    the same current flags, so what one answer sets does not change what
    another answer sets in the same step. *)
Theorem getAnswerFlags_app (node : DecisionNode) (sel1 sel2 : list Z) (fl : Flags) :
  getAnswerFlags node (sel1 ++ sel2) fl =
  getAnswerFlags node sel1 fl ++ getAnswerFlags node sel2 fl.
Proof.
  rewrite !getAnswerFlags_flat_map.
  destruct (answer_flags node); [apply flat_map_app | reflexivity].
Qed.

(** ** Hub resolution, continued *)

Section HubProps.

Variable decisionTree : DecisionTreeData.

(** Along a chain the working copy is the start flags with the flags of
    the hops applied. *)
Lemma hubChain_flags (n : nat) (s s' : string * Flags) (acc : list SetFlag) :
  hubChain decisionTree n s acc s' -> snd s' = applyFlags (snd s) acc.
Proof.
  induction 1 as [s | n s1 f1 s2 f2 s3 Hhop _ IH]; [reflexivity |].
  rewrite IH, applyFlags_app. destruct Hhop. reflexivity.
Qed.

Lemma hubChain_origin (n : nat) (s s' : string * Flags) (acc : list SetFlag) :
  hubChain decisionTree n s acc s' ->
  Forall (fromHubRoute decisionTree) acc.
Proof.
  induction 1 as [s | n s1 f1 s2 f2 s3 Hhop _ IH]; [constructor |].
  apply Forall_app. split; [| exact IH].
  destruct Hhop as [nodeId fl node result _ Hnode Hhub Hroute].
  apply firstMatchingRoute_Some in Hroute
    as (pre & route & post & Hsplit & _ & _ & ->).
  apply List.Forall_forall. intros f Hf.
  exists nodeId, node, route. repeat split; auto.
  rewrite Hsplit. apply in_elt.
Qed.

(** X8. A start node that is the terminal id, is not in the tree, or is
    not a hub is returned as it is, with no flags. *)
Theorem processHubNodes_identity (startNodeId : string) (fl : Flags) :
  startNodeId = "END" \/
  nodes decisionTree !! startNodeId = None \/
  (exists node, nodes decisionTree !! startNodeId = Some node /\
                isHubNode node = false) ->
  processHubNodes decisionTree startNodeId fl =
  {| finalNodeId := startNodeId; accumulatedFlags := [] |}.
Proof.
  intros Hstop. apply hubLoop_stops.
  destruct Hstop as [H | [H | (node & Hnode & Hhub)]].
  - now left.
  - right. now left.
  - right. right. exists node. auto.
Qed.

(** X9. The flags [processHubNodes] returns, applied to the flags it was
    given, are the working copy at the node it returns: the route of
    every hop was chosen on the given flags with the flags of the earlier
    hops applied, and a caller that applies the returned list holds the
    flags the chain ended with. *)
Theorem processHubNodes_working_copy (startNodeId : string) (fl : Flags) :
  exists n,
    (n <= 50)%nat /\
    hubChain decisionTree n (startNodeId, fl)
      (accumulatedFlags (processHubNodes decisionTree startNodeId fl))
      (finalNodeId (processHubNodes decisionTree startNodeId fl),
       applyFlags fl
         (accumulatedFlags (processHubNodes decisionTree startNodeId fl))).
Proof.
  unfold processHubNodes.
  destruct (hubLoop_walks_chain decisionTree maxIterations startNodeId fl [])
    as (n & final & fl' & fs & Hle & Hchain & Hloop & _).
  rewrite Hloop. simpl. exists n. split; [exact Hle |].
  pose proof (hubChain_flags _ _ _ _ Hchain) as Hfl. simpl in Hfl.
  now rewrite <- Hfl.
Qed.

Lemma processHubNodes_again (startNodeId : string) (fl : Flags) :
  (exists acc s', hubChain decisionTree 50 (startNodeId, fl) acc s') \/
  processHubNodes decisionTree
    (finalNodeId (processHubNodes decisionTree startNodeId fl))
    (applyFlags fl (accumulatedFlags (processHubNodes decisionTree startNodeId fl))) =
  {| finalNodeId := finalNodeId (processHubNodes decisionTree startNodeId fl);
     accumulatedFlags := [] |}.
Proof.
  destruct (hubLoop_walks_chain decisionTree maxIterations startNodeId fl [])
    as (n & final & fl' & fs & Hle & Hchain & Hloop & Hstop).
  assert (Hr : processHubNodes decisionTree startNodeId fl =
               {| finalNodeId := final; accumulatedFlags := fs |}).
  { unfold processHubNodes. exact Hloop. }
  rewrite Hr. cbn [finalNodeId accumulatedFlags].
  pose proof (hubChain_flags _ _ _ _ Hchain) as Hfl.
  cbn [fst snd] in Hfl. subst fl'.
  destruct (Nat.eq_dec n maxIterations) as [-> | Hne].
  - left. eauto.
  - right. unfold processHubNodes. apply hubLoop_stops, Hstop. lia.
Qed.

(** X10. Unless 50 hops can be made from the start node, resolving again
    from the node returned, on the flags returned, changes nothing: the
    node is returned with no further flags. *)
Theorem processHubNodes_idempotent (startNodeId : string) (fl : Flags) :
  (exists acc s', hubChain decisionTree 50 (startNodeId, fl) acc s') \/
  processHubNodes decisionTree
    (finalNodeId (processHubNodes decisionTree startNodeId fl))
    (applyFlags fl (accumulatedFlags (processHubNodes decisionTree startNodeId fl))) =
  {| finalNodeId := finalNodeId (processHubNodes decisionTree startNodeId fl);
     accumulatedFlags := [] |}.
Proof. apply processHubNodes_again. Qed.

(** X11. Every flag [processHubNodes] returns is set by a route of a hub
    of the tree. *)
Theorem processHubNodes_flags_from_routes (startNodeId : string) (fl : Flags)
    (f : SetFlag) :
  In f (accumulatedFlags (processHubNodes decisionTree startNodeId fl)) ->
  fromHubRoute decisionTree f.
Proof.
  unfold processHubNodes.
  destruct (hubLoop_walks_chain decisionTree maxIterations startNodeId fl [])
    as (n & final & fl' & fs & _ & Hchain & Hloop & _).
  rewrite Hloop. simpl. intros Hin.
  pose proof (hubChain_origin _ _ _ _ Hchain) as Hall.
  rewrite List.Forall_forall in Hall. now apply Hall.
Qed.

End HubProps.

Lemma processHubNodes_identity_witness :
  processHubNodes twoHubTree "Q_seen" ∅ =
  {| finalNodeId := "Q_seen"; accumulatedFlags := [] |}.
Proof.
  apply (processHubNodes_identity twoHubTree "Q_seen" ∅).
  right. left. reflexivity.
Defined.

Lemma processHubNodes_flags_from_routes_witness :
  fromHubRoute twoHubTree seenFlag.
Proof.
  apply (processHubNodes_flags_from_routes twoHubTree "H1" ∅ seenFlag).
  vm_compute. auto.
Defined.

(** ** Validation, continued *)

Lemma validateAnswer_isValid (q : Question) (sel : list Z)
    (rule : option ValidationRule) :
  isValid (validateAnswer q sel rule) =
  (negb (required q && (len sel =? 0)) &&
   negb (bool_decide (q_type q = single_choice) && (1 <? len sel)) &&
   bool_decide (boundErrors sel rule = []) &&
   negb (exclusiveSelected q sel && (1 <? len sel)))%bool.
Proof.
  assert (Hnil : forall l : list string, (len l =? 0) = bool_decide (l = [])).
  { intros [| x l]; reflexivity. }
  unfold validateAnswer.
  destruct (required q && (len sel =? 0))%bool; [reflexivity |].
  destruct (q_type q) eqn:Htype; simpl.
  - destruct (1 <? len sel); [reflexivity |].
    rewrite !andb_false_r, checkBounds_boundErrors, Hnil. simpl.
    now rewrite andb_true_r.
  - rewrite checkBounds_boundErrors. simpl.
    destruct (exclusiveSelected q sel) eqn:Hexcl.
    + rewrite (exclusiveSelected_needs_option q sel Hexcl). simpl.
      destruct (1 <? len sel); simpl; [now rewrite andb_false_r |].
      now rewrite Hnil, andb_true_r.
    + rewrite andb_false_r. simpl. now rewrite Hnil, andb_true_r.
Qed.

Lemma boundErrors_nil (sel : list Z) (rule : option ValidationRule) :
  boundErrors sel rule = [] <->
  forall r, rule = Some r ->
    min_selections r <= len sel /\
    forall m, max_selections r = Some m -> m <> 0 -> len sel <= m.
Proof.
  unfold boundErrors. destruct rule as [r |].
  2: { split; [intros _ r [=] | reflexivity]. }
  split.
  - intros Hnil r' [= <-]. apply app_eq_nil in Hnil as [Hmin Hmax]. split.
    + destruct (Z.ltb_spec (len sel) (min_selections r)); [discriminate | lia].
    + intros m Hm Hne. rewrite Hm in Hmax.
      apply Z.eqb_neq in Hne. rewrite Hne in Hmax. simpl in Hmax.
      destruct (Z.ltb_spec m (len sel)); [discriminate | lia].
  - intros Hok. destruct (Hok r eq_refl) as [Hmin Hmax].
    destruct (Z.ltb_spec (len sel) (min_selections r)); [lia |]. simpl.
    destruct (max_selections r) as [m |]; [| reflexivity].
    destruct (Z.eqb_spec m 0) as [-> | Hne]; [reflexivity |]. simpl.
    specialize (Hmax m eq_refl Hne).
    destruct (Z.ltb_spec m (len sel)); [lia | reflexivity].
Qed.

(** X12. An answer validates exactly when: a required question has a
    selection; a single-choice question has at most one; the selection
    has at least [min_selections] entries and, for a non-zero
    [max_selections], at most that many; and a selected value that is
    the id of an exclusive option stands alone. *)
Theorem validateAnswer_valid_iff (q : Question) (sel : list Z)
    (rule : option ValidationRule) :
  isValid (validateAnswer q sel rule) = true <->
  (required q = true -> sel <> []) /\
  (q_type q = single_choice -> len sel <= 1) /\
  (forall r, rule = Some r ->
     min_selections r <= len sel /\
     forall m, max_selections r = Some m -> m <> 0 -> len sel <= m) /\
  (exclusiveSelected q sel = true -> len sel <= 1).
Proof.
  rewrite validateAnswer_isValid.
  assert (Hempty : (len sel =? 0) = false <-> sel <> []).
  { unfold len. destruct sel; simpl; split; intros H;
      [discriminate | congruence | discriminate | reflexivity]. }
  assert (Hmany : forall b : bool,
            (b && (1 <? len sel))%bool = false <-> (b = true -> len sel <= 1)).
  { intros b. rewrite andb_false_iff, Z.ltb_ge.
    destruct b; intuition discriminate. }
  rewrite !andb_true_iff, !negb_true_iff, bool_decide_eq_true, boundErrors_nil.
  rewrite !Hmany, bool_decide_eq_true.
  assert (Hreq : (required q && (len sel =? 0))%bool = false <->
                 (required q = true -> sel <> [])).
  { rewrite andb_false_iff, Hempty.
    destruct (required q); intuition discriminate. }
  rewrite Hreq. tauto.
Qed.

(** ** Selection toggling, continued *)

Lemma toggle_cases (q : Question) (cur : list Z) (t : Z) :
  handleSelectionWithExclusivity q cur t =
  match q_type q with
  | single_choice => if includes cur t then [] else [t]
  | multiple_choice =>
      if includes cur t then List.filter (fun x => negb (x =? t)) cur
      else if isExclusiveOption q t then [t]
      else List.filter (fun x => negb (isExclusiveOption q x)) cur ++ [t]
  end.
Proof.
  unfold handleSelectionWithExclusivity.
  destruct (q_type q); [reflexivity |].
  destruct (includes cur t); [reflexivity |].
  destruct (isExclusiveOption q t); [reflexivity |].
  f_equal. apply filter_ext. intros x.
  now rewrite exclusiveIndices_isExclusive.
Qed.

(** X13. Toggling flips the toggled index, which is in the new selection
    exactly when it was not in the old one, and brings in no other
    index. *)
Theorem toggle_flips_membership (q : Question) (cur : list Z) (t : Z) :
  (In t (handleSelectionWithExclusivity q cur t) <-> ~ In t cur) /\
  (forall x, In x (handleSelectionWithExclusivity q cur t) ->
     x = t \/ In x cur).
Proof.
  rewrite toggle_cases.
  destruct (includes cur t) eqn:Hinc.
  - apply includes_In in Hinc.
    assert (Hout : ~ In t (List.filter (fun x => negb (x =? t)) cur)).
    { rewrite filter_In, negb_true_iff, Z.eqb_neq. intros [_ H]. now apply H. }
    destruct (q_type q); split; try tauto; simpl; try tauto.
    intros x Hx. apply filter_In in Hx. tauto.
  - apply includes_not_In in Hinc.
    destruct (q_type q); [simpl; split; [tauto | intros x [<- | []]; auto] |].
    destruct (isExclusiveOption q t);
      [simpl; split; [tauto | intros x [<- | []]; auto] |].
    split.
    + split; [intros _; assumption | intros _].
      apply in_or_app. right. simpl. auto.
    + intros x Hx. apply in_app_or in Hx as [Hx | [<- | []]]; auto.
      apply filter_In in Hx. tauto.
Qed.

(** X14. Toggling keeps a selection free of repeated indices. *)
Theorem toggle_preserves_NoDup (q : Question) (cur : list Z) (t : Z) :
  List.NoDup cur -> List.NoDup (handleSelectionWithExclusivity q cur t).
Proof.
  intros Hnodup. rewrite toggle_cases.
  assert (Hone : List.NoDup [t]) by (repeat constructor; intros []).
  destruct (q_type q).
  { destruct (includes cur t); [constructor | exact Hone]. }
  destruct (includes cur t) eqn:Hinc; [now apply List.NoDup_filter |].
  destruct (isExclusiveOption q t); [exact Hone |].
  apply includes_not_In in Hinc.
  apply List.NoDup_app; [now apply List.NoDup_filter | exact Hone |].
  intros x Hx [<- | []]. apply filter_In in Hx. tauto.
Qed.

Lemma existsb_filter_false {A : Type} (p : A -> bool) (l : list A) :
  existsb p (List.filter (fun x => negb (p x)) l) = false.
Proof.
  induction l as [| a l IH]; [reflexivity |]. simpl.
  destruct (p a) eqn:Hp; simpl; [exact IH |]. now rewrite Hp.
Qed.

Lemma existsb_filter_sub {A : Type} (p f : A -> bool) (l : list A) :
  existsb p (List.filter f l) = true -> existsb p l = true.
Proof.
  rewrite !existsb_exists. intros (x & Hx & Hp).
  apply filter_In in Hx. exists x. tauto.
Qed.

Lemma filter_length_le {A : Type} (f : A -> bool) (l : list A) :
  (length (List.filter f l) <= length l)%nat.
Proof.
  induction l as [| a l IH]; simpl; [lia |].
  destruct (f a); simpl; lia.
Qed.

Lemma toggle_invariants (q : Question) (cur : list Z) (t : Z) :
  exclusiveAlone q cur ->
  exclusiveAlone q (handleSelectionWithExclusivity q cur t) /\
  (q_type q = single_choice ->
   (length (handleSelectionWithExclusivity q cur t) <= 1)%nat).
Proof.
  unfold exclusiveAlone. intros Hcur. rewrite toggle_cases.
  destruct (q_type q).
  { destruct (includes cur t); simpl; split; intros; lia. }
  split; [| discriminate].
  destruct (includes cur t).
  - intros Hex. apply existsb_filter_sub in Hex.
    pose proof (filter_length_le (fun x => negb (x =? t)) cur). specialize (Hcur Hex).
    lia.
  - destruct (isExclusiveOption q t) eqn:Ht; [simpl; lia |].
    rewrite existsb_app, existsb_filter_false. simpl. rewrite Ht. discriminate.
Qed.

(** X15. Toggling keeps an exclusive index alone: if in the current
    selection an exclusive index, where there is one, is the only entry,
    the same holds after any toggle; on a single-choice question the new
    selection has at most one entry. *)
Theorem toggle_keeps_exclusive_alone (q : Question) (cur : list Z) (t : Z) :
  exclusiveAlone q cur ->
  exclusiveAlone q (handleSelectionWithExclusivity q cur t) /\
  (q_type q = single_choice ->
   (length (handleSelectionWithExclusivity q cur t) <= 1)%nat).
Proof. apply toggle_invariants. Qed.

Lemma toggle_keeps_exclusive_alone_witness :
  exclusiveAlone checkboxQuestion
    (handleSelectionWithExclusivity checkboxQuestion [5] 3).
Proof.
  apply (toggle_keeps_exclusive_alone checkboxQuestion [5] 3).
  intros _. simpl. lia.
Defined.

Lemma toggle_preserves_NoDup_witness :
  List.NoDup (handleSelectionWithExclusivity checkboxQuestion [1; 2] 4).
Proof.
  apply (toggle_preserves_NoDup checkboxQuestion [1; 2] 4).
  repeat constructor; simpl; intuition lia.
Defined.

Lemma sixOptions_ids : idsArePositions checkboxQuestion.
Proof.
  intros i opt Hopt. simpl in Hopt.
  do 6 (destruct i as [| i]; [injection Hopt as <-; reflexivity |]).
  discriminate.
Qed.

(** X16. Where the ids of the options are their positions, a selection
    obtained by a toggle from one in which an exclusive index stands
    alone passes the validation without rule as soon as it is not empty:
    the single-choice and the exclusivity check cannot fail on it. *)
Theorem toggled_selection_validates (q : Question) (cur : list Z) (t : Z) :
  idsArePositions q ->
  exclusiveAlone q cur ->
  handleSelectionWithExclusivity q cur t <> [] ->
  isValid (validateAnswer q (handleSelectionWithExclusivity q cur t) None) = true.
Proof.
  intros Hids Hcur Hne.
  destruct (toggle_invariants q cur t Hcur) as [Halone Hsingle].
  set (sel := handleSelectionWithExclusivity q cur t) in *.
  rewrite validateAnswer_isValid. simpl.
  rewrite (exclusiveSelected_by_index q sel Hids).
  assert (Hlen : (len sel =? 0) = false).
  { apply Z.eqb_neq. unfold len. destruct sel; [congruence | simpl; lia]. }
  rewrite Hlen, andb_false_r. simpl.
  assert (H1 : (bool_decide (q_type q = single_choice) && (1 <? len sel))%bool = false).
  { destruct (decide (q_type q = single_choice)) as [Hs | Hs].
    - apply andb_false_iff. right. apply Z.ltb_ge. specialize (Hsingle Hs).
      unfold len. lia.
    - apply andb_false_iff. left. now apply bool_decide_eq_false. }
  rewrite H1. simpl.
  unfold exclusiveAlone in Halone.
  destruct (existsb (isExclusiveOption q) sel); [| reflexivity]. simpl.
  apply negb_true_iff, Z.ltb_ge. specialize (Halone eq_refl). unfold len. lia.
Qed.

Lemma toggled_selection_validates_witness :
  isValid (validateAnswer checkboxQuestion
             (handleSelectionWithExclusivity checkboxQuestion [5] 3) None) = true.
Proof.
  apply (toggled_selection_validates checkboxQuestion [5] 3).
  - exact sixOptions_ids.
  - intros _. simpl. lia.
  - discriminate.
Defined.

(** X17. [hasRequiredAnswers] holds exactly when every listed id that
    names a required question has a stored selection that is not empty;
    ids without question, and questions that are not required, ask for
    nothing. *)
Theorem hasRequiredAnswers_iff (questionIds : list string)
    (stored : gmap string (list Z)) (questions : gmap string Question) :
  hasRequiredAnswers questionIds stored questions = true <->
  forall qId question,
    In qId questionIds ->
    questions !! qId = Some question ->
    required question = true ->
    exists selected, stored !! qId = Some selected /\ selected <> [].
Proof.
  unfold hasRequiredAnswers. rewrite forallb_forall. split.
  - intros Hall qId question Hin Hq Hreq. specialize (Hall qId Hin).
    rewrite Hq, Hreq in Hall. simpl in Hall.
    destruct (stored !! qId) as [selected |]; [| discriminate].
    exists selected. split; [reflexivity |]. intros ->. discriminate.
  - intros Hall qId Hin.
    destruct (questions !! qId) as [question |] eqn:Hq; [| reflexivity].
    destruct (required question) eqn:Hreq; [| reflexivity]. simpl.
    destruct (Hall qId question Hin Hq Hreq) as (selected & -> & Hne).
    unfold len. destruct selected; [congruence | reflexivity].
Qed.

(** ** Wizard state, continued *)

(** X18. An answer written with [setAnswer] is what
    [getAnswersForQuestion] reads for that question, the answers of the
    other questions are as before, and a question never answered reads
    as the empty selection. *)
Theorem setAnswer_getAnswers (tree : DecisionTreeData) (st : WizardStore)
    (questionId other : string) (selected : list Z) :
  getAnswersForQuestion (setAnswer questionId selected st) other =
    (if String.eqb other questionId then selected
     else getAnswersForQuestion st other) /\
  getAnswersForQuestion (initialStore tree) other = [].
Proof.
  unfold getAnswersForQuestion, setAnswer. simpl. split; [| reflexivity].
  destruct (String.eqb_spec other questionId) as [-> | Hne].
  - now rewrite lookup_insert_eq.
  - now rewrite lookup_insert_ne.
Qed.

(** X19. In a store a session can reach, the Back button is enabled,
    that is the visited-node history is not empty, exactly when [goBack]
    succeeds. *)
Theorem canGoBack_iff_goBack (tree : DecisionTreeData) (c : WizardComponent) :
  reachable tree (wizard c) ->
  canGoBack c = fst (goBack (wizard c)).
Proof.
  intros Hreach. unfold canGoBack, goBack.
  rewrite (history_parallel tree _ Hreach).
  destruct (historyStack (wizard c)) as [| e l] using rev_ind; [reflexivity |].
  rewrite last_snoc, map_app. unfold len. rewrite length_app. simpl.
  apply Z.ltb_lt. lia.
Qed.

Lemma canGoBack_iff_goBack_witness :
  canGoBack {| wizard := addToHistory "H" [0] ∅ (initialStore loopTree);
               validationErrors := []; consoleErrors := [] |} = true.
Proof.
  exact (canGoBack_iff_goBack loopTree
           {| wizard := addToHistory "H" [0] ∅ (initialStore loopTree);
              validationErrors := []; consoleErrors := [] |}
           (reach_addToHistory loopTree "H" [0] ∅ _ (reach_initial loopTree))).
Defined.

(** ** The wizard's step *)

Lemma applyFlagsIfAny_eq (fs : list SetFlag) (st : WizardStore) :
  applyFlagsIfAny fs st = applyFlagsToState fs st.
Proof.
  unfold applyFlagsIfAny. destruct fs as [| f fs]; [| reflexivity].
  destruct st as [[] ?]. reflexivity.
Qed.

Section WizardStep.

Variable decisionTree : DecisionTreeData.
Variable questions : gmap string Question.
Variable validationRules : gmap string ValidationRule.

(** A step that passes validation, with the object literals and the
    guarded calls written as applications of flag lists. *)
Lemma handleNext_valid (c : WizardComponent) (node : DecisionNode) (q : Question) :
  currentNode decisionTree c = Some node ->
  currentQuestion decisionTree questions c = Some q ->
  isValid (validateAnswer q (currentAnswers decisionTree questions c)
             (validationRules !! q_id q)) = true ->
  let s := state (wizard c) in
  let sel := currentAnswers decisionTree questions c in
  let pushed := addToHistory (currentNodeId s) sel (flags s) (wizard c) in
  let forAnswer := getAllFlagsForAnswer node sel (flags s) in
  handleNext decisionTree questions validationRules c =
  match evaluateRouting node sel (applyFlags (flags s) forAnswer) with
  | None =>
      {| wizard := applyFlagsToState forAnswer pushed;
         validationErrors := validationErrors c;
         consoleErrors := consoleErrors c ++ ["No valid route found"] |}
  | Some next =>
      let updated := applyFlags (applyFlags (flags s) forAnswer) (flagsToSet next) in
      let hubResult := processHubNodes decisionTree (nextNodeId next) updated in
      {| wizard :=
           setCurrentNode (finalNodeId hubResult)
             (applyFlagsToState (accumulatedFlags hubResult)
                (applyFlagsToState (flagsToSet next)
                   (applyFlagsToState forAnswer pushed)));
         validationErrors := validationErrors c;
         consoleErrors := consoleErrors c |}
  end.
Proof.
  intros Hnode Hq Hvalid. cbv zeta. unfold handleNext.
  rewrite Hnode, Hq, Hvalid. cbv zeta. simpl negb. cbv iota.
  rewrite !applyFlagsIfAny_eq, !spread_fromEntries.
  unfold getNextNode. unfold currentNode, getNode in Hnode. rewrite Hnode.
  destruct (evaluateRouting node _ _) as [next |]; [| reflexivity].
  now rewrite !applyFlagsIfAny_eq, !spread_fromEntries.
Qed.

(** X20. After a step that passed validation, whether a route was found
    or not, [goBack] succeeds and gives back the node, the flags, the
    visited-node history and the undo stack of before the step; the
    answers are kept and the completion flag is cleared. *)
Theorem handleNext_then_goBack (c : WizardComponent) (node : DecisionNode)
    (q : Question) :
  currentNode decisionTree c = Some node ->
  currentQuestion decisionTree questions c = Some q ->
  isValid (validateAnswer q (currentAnswers decisionTree questions c)
             (validationRules !! q_id q)) = true ->
  goBack (wizard (handleNext decisionTree questions validationRules c)) =
  (true,
   {| state := {| currentNodeId := currentNodeId (state (wizard c));
                  answers := answers (state (wizard c));
                  flags := flags (state (wizard c));
                  history := history (state (wizard c));
                  isComplete := false |};
      historyStack := historyStack (wizard c) |}).
Proof.
  intros Hnode Hq Hvalid.
  rewrite (handleNext_valid c node q Hnode Hq Hvalid). cbv zeta.
  destruct (evaluateRouting node _ _) as [next |];
    unfold goBack; simpl; rewrite last_snoc, !removelast_last; reflexivity.
Qed.

(** X21. When the answer passes validation but no route of the node
    matches on the flags with the answer's flags applied, the wizard
    stays on its node and reports the failure on the console, but the
    step has left its traces: the undo snapshot and the history entry are
    pushed, and the flags collected for the answer are applied. *)
Theorem handleNext_no_route (c : WizardComponent) (node : DecisionNode)
    (q : Question) :
  currentNode decisionTree c = Some node ->
  currentQuestion decisionTree questions c = Some q ->
  isValid (validateAnswer q (currentAnswers decisionTree questions c)
             (validationRules !! q_id q)) = true ->
  evaluateRouting node (currentAnswers decisionTree questions c)
    (applyFlags (flags (state (wizard c)))
       (getAllFlagsForAnswer node (currentAnswers decisionTree questions c)
          (flags (state (wizard c))))) = None ->
  let c' := handleNext decisionTree questions validationRules c in
  currentNodeId (state (wizard c')) = currentNodeId (state (wizard c)) /\
  history (state (wizard c')) =
    history (state (wizard c)) ++ [currentNodeId (state (wizard c))] /\
  length (historyStack (wizard c')) = S (length (historyStack (wizard c))) /\
  flags (state (wizard c')) =
    applyFlags (flags (state (wizard c)))
      (getAllFlagsForAnswer node (currentAnswers decisionTree questions c)
         (flags (state (wizard c)))) /\
  consoleErrors c' = consoleErrors c ++ ["No valid route found"].
Proof.
  intros Hnode Hq Hvalid Hroute. cbv zeta.
  rewrite (handleNext_valid c node q Hnode Hq Hvalid). cbv zeta.
  rewrite Hroute. simpl. rewrite length_app. simpl.
  repeat split; auto. lia.
Qed.

Lemma handleNext_routed_state (c : WizardComponent) (node : DecisionNode)
    (q : Question) (next : RoutingResult) :
  currentNode decisionTree c = Some node ->
  currentQuestion decisionTree questions c = Some q ->
  isValid (validateAnswer q (currentAnswers decisionTree questions c)
             (validationRules !! q_id q)) = true ->
  evaluateRouting node (currentAnswers decisionTree questions c)
    (applyFlags (flags (state (wizard c)))
       (getAllFlagsForAnswer node (currentAnswers decisionTree questions c)
          (flags (state (wizard c))))) = Some next ->
  let forAnswer :=
    getAllFlagsForAnswer node (currentAnswers decisionTree questions c)
      (flags (state (wizard c))) in
  let updated := applyFlags (flags (state (wizard c))) (forAnswer ++ flagsToSet next) in
  let hubResult := processHubNodes decisionTree (nextNodeId next) updated in
  state (wizard (handleNext decisionTree questions validationRules c)) =
  {| currentNodeId := finalNodeId hubResult;
     answers := answers (state (wizard c));
     flags := applyFlags updated (accumulatedFlags hubResult);
     history := history (state (wizard c)) ++ [currentNodeId (state (wizard c))];
     isComplete := String.eqb (finalNodeId hubResult) "END" |}.
Proof.
  intros Hnode Hq Hvalid Hroute. cbv zeta.
  rewrite (handleNext_valid c node q Hnode Hq Hvalid). cbv zeta.
  rewrite Hroute. simpl. now rewrite applyFlags_app.
Qed.

(** X22. After a step on which a route was found, the stored flags are
    the flags the hub chain ended on: the former flags with, applied in
    this order, the list [getAllFlagsForAnswer] collected on the former
    flags (the per-answer flags, then the flags of the route that matches
    on the former flags), the flags of the route taken, which is the
    first to match once that list is applied, and the flags of the hubs.
    Where the two routes differ, the flags of the route not taken are
    stored as well. The current node is the node the hubs resolve to, the
    completion flag tells whether it is the terminal id, the node left is
    appended to the history, and the answers are as before. *)
Theorem handleNext_routed (c : WizardComponent) (node : DecisionNode)
    (q : Question) (next : RoutingResult) :
  currentNode decisionTree c = Some node ->
  currentQuestion decisionTree questions c = Some q ->
  isValid (validateAnswer q (currentAnswers decisionTree questions c)
             (validationRules !! q_id q)) = true ->
  evaluateRouting node (currentAnswers decisionTree questions c)
    (applyFlags (flags (state (wizard c)))
       (getAllFlagsForAnswer node (currentAnswers decisionTree questions c)
          (flags (state (wizard c))))) = Some next ->
  let forAnswer :=
    getAllFlagsForAnswer node (currentAnswers decisionTree questions c)
      (flags (state (wizard c))) in
  let updated := applyFlags (flags (state (wizard c))) (forAnswer ++ flagsToSet next) in
  let hubResult := processHubNodes decisionTree (nextNodeId next) updated in
  state (wizard (handleNext decisionTree questions validationRules c)) =
  {| currentNodeId := finalNodeId hubResult;
     answers := answers (state (wizard c));
     flags := applyFlags updated (accumulatedFlags hubResult);
     history := history (state (wizard c)) ++ [currentNodeId (state (wizard c))];
     isComplete := String.eqb (finalNodeId hubResult) "END" |}.
Proof. apply handleNext_routed_state. Qed.

End WizardStep.

Lemma handleNext_then_goBack_witness :
  fst (goBack (wizard (handleNext wizardTree wizardQuestions ∅ answeredStart))) = true.
Proof.
  rewrite (handleNext_then_goBack wizardTree wizardQuestions ∅ answeredStart
             endNode radioQuestion).
  - reflexivity.
  - reflexivity.
  - reflexivity.
  - vm_compute. reflexivity.
Defined.

Lemma handleNext_no_route_witness :
  currentNodeId (state (wizard (handleNext wizardTree wizardQuestions ∅ answeredDead)))
  = "N0".
Proof.
  apply (handleNext_no_route wizardTree wizardQuestions ∅ answeredDead
           deadNode radioQuestion).
  - reflexivity.
  - reflexivity.
  - vm_compute. reflexivity.
  - reflexivity.
Defined.

(** On [detourNode] the flag of the answer turns the routing from the
    default route to the first one: the step ends on END, the node of the
    first route, and the flag of the default route is stored with the
    flag of the route taken. *)
Example handleNext_stores_untaken_route_flags :
  let c' := handleNext detourTree wizardQuestions ∅ answeredDetour in
  currentNodeId (state (wizard c')) = "END" /\
  flags (state (wizard c')) !! "dflt" = Some (VBool true) /\
  flags (state (wizard c')) !! "taken" = Some (VBool true).
Proof. vm_compute. repeat split; reflexivity. Qed.

Lemma handleNext_routed_witness :
  currentNodeId (state (wizard (handleNext wizardTree wizardQuestions ∅ answeredStart)))
  = "END".
Proof.
  rewrite (handleNext_routed wizardTree wizardQuestions ∅ answeredStart
             endNode radioQuestion
             {| nextNodeId := "END"; flagsToSet := [seenFlag] |}).
  - reflexivity.
  - reflexivity.
  - reflexivity.
  - vm_compute. reflexivity.
  - reflexivity.
Defined.

(** ** Outcomes *)

Lemma flaggedOutcomes_filter (acc : list Outcome)
    (entries : list (string * Outcome)) (fl : Flags) :
  flaggedOutcomes acc entries fl =
  acc ++ map snd (List.filter (flaggedEntry fl) entries).
Proof.
  revert acc. induction entries as [| [flagId o] entries IH]; intros acc.
  - now rewrite app_nil_r.
  - cbn [flaggedOutcomes List.filter]. unfold flaggedEntry at 1. simpl.
    destruct (flag_is fl flagId (VBool true)); simpl; [| apply IH].
    destruct (is_empty o); simpl; [apply IH |].
    rewrite IH. now rewrite <- app_assoc.
Qed.

Lemma outcomeAt_In (entries : list (string * Outcome)) (key : string) (o : Outcome) :
  outcomeAt entries key = Some o -> In (key, o) entries.
Proof.
  unfold outcomeAt. intros H.
  destruct (List.find _ entries) as [[k o'] |] eqn:Hfind; [| discriminate].
  injection H as <-. apply find_some in Hfind as [Hin Hkey].
  apply String.eqb_eq in Hkey. simpl in Hkey. now subst.
Qed.

(** The active outcomes are the flagged ones, in the order of the table,
    followed by at most one outcome named by the system role. *)
Lemma getActiveOutcomes_shape (entries : list (string * Outcome)) (fl : Flags) :
  getActiveOutcomes entries fl = map snd (List.filter (flaggedEntry fl) entries) \/
  exists key o,
    namedByRole fl key /\ In (key, o) entries /\ is_empty o = false /\
    getActiveOutcomes entries fl =
      map snd (List.filter (flaggedEntry fl) entries) ++ [o].
Proof.
  unfold getActiveOutcomes. rewrite flaggedOutcomes_filter. simpl.
  destruct (fl !! "flag_ai_system_role") as [[b | systemRole] |] eqn:Hrole;
    try (now left).
  destruct (roleFlagMapping systemRole) as [key |] eqn:Hkey; [| now left].
  destruct (outcomeAt entries key) as [o |] eqn:Ho; [| now left].
  destruct (is_empty o) eqn:Hempty; simpl; [now left |].
  destruct (existsb _ _); simpl; [now left |].
  right. exists key, o. split; [now exists systemRole |].
  split; [now apply outcomeAt_In |]. auto.
Qed.

(** X23. An active outcome is never marked empty, and it is an outcome
    of the table: under a key that is set to boolean true in the flags,
    or under the key the system-role flag names. *)
Theorem getActiveOutcomes_sound (entries : list (string * Outcome)) (fl : Flags)
    (o : Outcome) :
  In o (getActiveOutcomes entries fl) ->
  is_empty o = false /\
  exists key,
    In (key, o) entries /\
    (fl !! key = Some (VBool true) \/ namedByRole fl key).
Proof.
  assert (Hflagged : In o (map snd (List.filter (flaggedEntry fl) entries)) ->
            is_empty o = false /\
            exists key, In (key, o) entries /\
              (fl !! key = Some (VBool true) \/ namedByRole fl key)).
  { intros Hin. apply in_map_iff in Hin as ([key o'] & <- & Hin).
    apply filter_In in Hin as [Hin Hok]. unfold flaggedEntry in Hok.
    apply andb_true_iff in Hok as [Hflag Hempty]. simpl in *.
    split; [now apply negb_true_iff |].
    exists key. split; [assumption |]. left. now apply flag_is_true. }
  destruct (getActiveOutcomes_shape entries fl)
    as [-> | (key & o' & Hrole & Hin & Hempty & ->)]; [exact Hflagged |].
  intros Hin'. apply in_app_or in Hin' as [Hin' | [<- | []]];
    [now apply Hflagged |].
  split; [assumption |]. exists key. auto.
Qed.

Lemma getActiveOutcomes_sound_witness :
  is_empty highRiskOutcome = false /\
  exists key,
    In (key, highRiskOutcome) sampleTable /\
    (sampleFlags !! key = Some (VBool true) \/ namedByRole sampleFlags key).
Proof.
  apply (getActiveOutcomes_sound sampleTable sampleFlags highRiskOutcome).
  vm_compute. auto.
Defined.

(** X24. Every outcome of the table that is not marked empty and whose
    key is set to boolean true is active; these come first, in the order
    of the table, and at most one further outcome follows them. *)
Theorem getActiveOutcomes_complete (entries : list (string * Outcome)) (fl : Flags) :
  exists extra,
    getActiveOutcomes entries fl =
      map snd (List.filter (flaggedEntry fl) entries) ++ extra /\
    (length extra <= 1)%nat /\
    forall key o,
      In (key, o) entries -> fl !! key = Some (VBool true) ->
      is_empty o = false -> In o (getActiveOutcomes entries fl).
Proof.
  assert (Hin : forall key o,
            In (key, o) entries -> fl !! key = Some (VBool true) ->
            is_empty o = false ->
            In o (map snd (List.filter (flaggedEntry fl) entries))).
  { intros key o Hin Hflag Hempty.
    apply in_map_iff. exists (key, o). split; [reflexivity |].
    apply filter_In. split; [assumption |]. unfold flaggedEntry. simpl.
    apply andb_true_iff. split; [now apply flag_is_true |]. now rewrite Hempty. }
  destruct (getActiveOutcomes_shape entries fl)
    as [Heq | (key & o' & _ & _ & _ & Heq)]; rewrite Heq.
  - exists []. rewrite app_nil_r. split; [reflexivity |]. split; [simpl; lia |].
    exact Hin.
  - exists [o']. split; [reflexivity |]. split; [simpl; lia |].
    intros k o H1 H2 H3. apply in_or_app. left. eauto.
Qed.

Example active_outcomes_sample :
  getActiveOutcomes sampleTable sampleFlags = [highRiskOutcome; providerOutcome].
Proof. vm_compute. reflexivity. Qed.

(** The loop over the risk levels, by induction on the list. *)
Lemma firstRisk_spec (risks : list string) (outs : list Outcome) :
  (exists pre post,
     risks = pre ++ firstRisk risks outs :: post /\
     Forall (fun r => hasRisk outs r = false) pre /\
     hasRisk outs (firstRisk risks outs) = true) \/
  (Forall (fun r => hasRisk outs r = false) risks /\
   firstRisk risks outs = "general").
Proof.
  induction risks as [| r risks IH]; simpl.
  - right. split; [constructor | reflexivity].
  - destruct (hasRisk outs r) eqn:Hr.
    + left. exists [], risks. repeat split; auto.
    + destruct IH as [(pre & post & Heq & Hpre & Hhit) | [Hall Hgen]].
      * left. exists (r :: pre), post. simpl. rewrite <- Heq.
        repeat split; auto.
      * right. split; [constructor; assumption | assumption].
Qed.

(** X25. The primary risk level is one of the ten levels of the fixed
    order. No level before it in that order has an active outcome, and
    either it has one itself, or it is [general] and no level of the
    order has an active outcome. *)
Theorem getPrimaryRiskLevel_first (outs : list Outcome) :
  exists pre post,
    riskPriority = pre ++ getPrimaryRiskLevel outs :: post /\
    Forall (fun r => hasRisk outs r = false) pre /\
    (hasRisk outs (getPrimaryRiskLevel outs) = true \/
     (getPrimaryRiskLevel outs = "general" /\
      Forall (fun r => hasRisk outs r = false) riskPriority)).
Proof.
  unfold getPrimaryRiskLevel.
  destruct (firstRisk_spec riskPriority outs)
    as [(pre & post & Heq & Hpre & Hhit) | [Hall Hgen]].
  - exists pre, post. auto.
  - rewrite Hgen.
    exists [ "prohibited"; "systemic_risk"; "high_risk"; "obligations";
             "transparency_obligations"; "open_source_exception" ],
           [ "out_of_scope"; "not_applicable"; "role_classification" ].
    split; [reflexivity |]. split; [| right; auto].
    unfold riskPriority in Hall.
    repeat match goal with
           | H : Forall _ (_ :: _) |- _ => inversion H; clear H; subst
           end.
    repeat constructor; assumption.
Qed.

(** *** Articles *)

Lemma set_add_In (s : list Z) (x y : Z) :
  In y (set_add s x) <-> y = x \/ In y s.
Proof.
  unfold set_add. destruct (includes s x) eqn:Hinc.
  - apply includes_In in Hinc. split; [auto | intros [-> | H]; assumption].
  - rewrite in_app_iff. simpl. split; [intros [H | [<- | []]]; auto |].
    intros [-> | H]; auto.
Qed.

Lemma set_add_NoDup (s : list Z) (x : Z) :
  List.NoDup s -> List.NoDup (set_add s x).
Proof.
  intros Hs. unfold set_add. destruct (includes s x) eqn:Hinc; [assumption |].
  apply includes_not_In in Hinc.
  apply List.NoDup_app; [assumption | repeat constructor; intros [] |].
  intros y Hy [<- | []]. contradiction.
Qed.

Lemma fold_set_add (l s : list Z) :
  List.NoDup s ->
  List.NoDup (fold_left set_add l s) /\
  forall y, In y (fold_left set_add l s) <-> In y l \/ In y s.
Proof.
  revert s. induction l as [| x l IH]; intros s Hs; simpl.
  - split; [assumption | intros y; tauto].
  - destruct (IH (set_add s x) (set_add_NoDup s x Hs)) as [Hnd Hin].
    split; [assumption |]. intros y. rewrite Hin, set_add_In. intuition.
Qed.

Lemma collectArticles_spec (outs : list Outcome) :
  List.NoDup (collectArticles outs) /\
  forall a, In a (collectArticles outs) <-> articleOf outs a.
Proof.
  unfold collectArticles, articleOf.
  assert (Hgen : forall s, List.NoDup s ->
            List.NoDup (fold_left (fun articlesSet outcome =>
                          fold_left set_add (applicable_articles outcome) articlesSet)
                          outs s) /\
            forall a, In a (fold_left (fun articlesSet outcome =>
                          fold_left set_add (applicable_articles outcome) articlesSet)
                          outs s) <->
                      (exists o, In o outs /\ In a (applicable_articles o)) \/ In a s).
  { induction outs as [| o outs IH]; intros s Hs; simpl.
    - split; [assumption |]. intros a. split; [auto | intros [(o & [] & _) | H]; auto].
    - destruct (fold_set_add (applicable_articles o) s Hs) as [Hnd Hin].
      destruct (IH _ Hnd) as [Hnd' Hin']. split; [assumption |].
      intros a. rewrite Hin', Hin. split.
      + intros [(o' & Ho' & Ha) | [Ha | Ha]]; eauto.
      + intros [(o' & [<- | Ho'] & Ha) | Ha]; eauto. }
  destruct (Hgen [] (List.NoDup_nil Z)) as [Hnd Hin]. split; [assumption |].
  intros a. rewrite Hin. simpl. tauto.
Qed.

Lemma sort_insert_ascending (x : Z) (l : list Z) :
  StronglySorted Z.le l -> StronglySorted Z.le (sort_insert ascending x l).
Proof.
  induction 1 as [| y l Hsorted IH Hy]; simpl.
  - repeat constructor.
  - unfold ascending at 1.
    destruct (Z.leb_spec (x - y) 0) as [Hle | Hgt].
    + constructor; [now constructor |].
      constructor; [lia |].
      eapply List.Forall_impl; [| exact Hy]. simpl. intros b Hb. lia.
    + constructor; [exact IH |].
      eapply Permutation_Forall.
      * symmetry. apply sort_insert_Permutation.
      * constructor; [lia | exact Hy].
Qed.

Lemma array_sort_ascending (l : list Z) :
  StronglySorted Z.le (array_sort ascending l).
Proof.
  induction l as [| x l IH]; simpl; [constructor |].
  now apply sort_insert_ascending.
Qed.

Lemma sorted_NoDup_strict (l : list Z) :
  StronglySorted Z.le l -> List.NoDup l -> StronglySorted Z.lt l.
Proof.
  induction 1 as [| x l Hsorted IH Hx]; intros Hnd; [constructor |].
  inversion Hnd as [| ? ? Hnotin Hnd']; subst.
  constructor; [now apply IH |].
  rewrite List.Forall_forall in *. intros y Hy.
  specialize (Hx y Hy). assert (x <> y) by (intros ->; contradiction). lia.
Qed.

Lemma getApplicableArticles_sorted (outs : list Outcome) :
  StronglySorted Z.lt (getApplicableArticles outs) /\
  forall a, In a (getApplicableArticles outs) <-> articleOf outs a.
Proof.
  unfold getApplicableArticles.
  destruct (collectArticles_spec outs) as [Hnd Hin].
  pose proof (array_sort_Permutation ascending (collectArticles outs)) as Hperm.
  split.
  - apply sorted_NoDup_strict; [apply array_sort_ascending |].
    eapply Permutation_NoDup; [symmetry; exact Hperm | exact Hnd].
  - intros a. rewrite <- Hin. split; apply Permutation_in; [| symmetry]; exact Hperm.
Qed.

(** X26. The applicable articles are in strictly ascending order, so no
    article is listed twice, and an article is listed exactly when one of
    the outcomes names it. *)
Theorem getApplicableArticles_spec (outs : list Outcome) :
  StronglySorted Z.lt (getApplicableArticles outs) /\
  forall a, In a (getApplicableArticles outs) <->
            exists o, In o outs /\ In a (applicable_articles o).
Proof. apply getApplicableArticles_sorted. Qed.

Lemma strictly_sorted_unique (l1 l2 : list Z) :
  StronglySorted Z.lt l1 -> StronglySorted Z.lt l2 ->
  (forall x, In x l1 <-> In x l2) -> l1 = l2.
Proof.
  intros H1. revert l2. induction H1 as [| a l1 Hs1 IH Ha]; intros l2 H2 Hmem.
  - destruct l2 as [| b l2]; [reflexivity |].
    destruct (proj2 (Hmem b) (or_introl eq_refl)).
  - destruct H2 as [| b l2 Hs2 Hb].
    { destruct (proj1 (Hmem a) (or_introl eq_refl)). }
    rewrite List.Forall_forall in Ha, Hb.
    assert (Hab : a = b).
    { destruct (proj1 (Hmem a) (or_introl eq_refl)) as [Heq | Hin]; [auto |].
      destruct (proj2 (Hmem b) (or_introl eq_refl)) as [Heq | Hin']; [auto |].
      specialize (Ha b Hin'). specialize (Hb a Hin). lia. }
    subst b. f_equal. apply IH; [assumption |].
    intros x. split; intros Hx.
    + destruct (proj1 (Hmem x) (or_intror Hx)) as [<- | Hin]; [| assumption].
      specialize (Ha a Hx). lia.
    + destruct (proj2 (Hmem x) (or_intror Hx)) as [<- | Hin]; [| assumption].
      specialize (Hb a Hx). lia.
Qed.

(** X27. The applicable articles depend on the outcomes only through the
    articles they name: two lists of outcomes that name the same
    articles, such as a list and a rearrangement of it, give the same
    list of articles. *)
Theorem getApplicableArticles_same_articles (outs outs' : list Outcome) :
  (forall a, articleOf outs a <-> articleOf outs' a) ->
  getApplicableArticles outs = getApplicableArticles outs'.
Proof.
  intros Hsame.
  destruct (getApplicableArticles_sorted outs) as [Hs Hin].
  destruct (getApplicableArticles_sorted outs') as [Hs' Hin'].
  apply strictly_sorted_unique; [assumption | assumption |].
  intros a. now rewrite Hin, Hin', Hsame.
Qed.

Lemma getApplicableArticles_same_articles_witness :
  getApplicableArticles [highRiskOutcome; providerOutcome] =
  getApplicableArticles [providerOutcome; highRiskOutcome; providerOutcome].
Proof.
  apply (getApplicableArticles_same_articles
           [highRiskOutcome; providerOutcome]
           [providerOutcome; highRiskOutcome; providerOutcome]).
  intros a. unfold articleOf. split; intros (o & Ho & Ha); exists o;
    (split; [simpl in *; tauto | assumption]).
Defined.

Example articles_sample :
  getApplicableArticles [providerOutcome; highRiskOutcome] = [3; 6; 16].
Proof. reflexivity. Qed.

(** *** Grouping, continued *)

Lemma array_sort_sorted_id (l : list Outcome) :
  weightDescending l -> array_sort byWeightDesc l = l.
Proof.
  unfold weightDescending.
  induction 1 as [| a l Hsorted IH Ha]; [reflexivity |].
  cbn [array_sort fold_right].
  change (fold_right (sort_insert byWeightDesc) [] l)
    with (array_sort byWeightDesc l).
  rewrite IH. destruct l as [| y l]; [reflexivity |].
  simpl. unfold byWeightDesc.
  inversion Ha as [| ? ? Hy _]; subst.
  destruct (Z.leb_spec (priority_weight y - priority_weight a) 0); [reflexivity | lia].
Qed.

Lemma filter_all {A : Type} (f : A -> bool) (l : list A) :
  (forall x, In x l -> f x = true) -> List.filter f l = l.
Proof.
  induction l as [| a l IH]; intros H; [reflexivity |]. simpl.
  rewrite (H a (or_introl eq_refl)). f_equal. apply IH. intros x Hx. apply H. now right.
Qed.

Lemma filter_none {A : Type} (f : A -> bool) (l : list A) :
  (forall x, In x l -> f x = false) -> List.filter f l = [].
Proof.
  induction l as [| a l IH]; intros H; [reflexivity |]. simpl.
  rewrite (H a (or_introl eq_refl)). apply IH. intros x Hx. apply H. now right.
Qed.

Lemma bucket_levels (outs : list Outcome) (level level' : StructureLevel)
    (o : Outcome) :
  In o (bucket (groupOutcomesByLevel outs) level) ->
  hasLevel level' o = bool_decide (level = level').
Proof.
  rewrite groupOutcomesByLevel_bucket. intros Hin.
  apply (Permutation_in _ (array_sort_Permutation _ _)), filter_In in Hin.
  destruct Hin as [_ Hlevel]. apply bool_decide_eq_true in Hlevel.
  unfold hasLevel. rewrite Hlevel. reflexivity.
Qed.

Lemma grouped_ext (g g' : GroupedOutcomes) :
  (forall level, bucket g level = bucket g' level) -> g = g'.
Proof.
  intros H. destruct g, g'.
  pose proof (H L_role). pose proof (H L_risk_level). pose proof (H L_obligation).
  simpl in *. congruence.
Qed.

(** X28. Grouping is stable under regrouping: the three buckets put one
    after the other and grouped again give the same three buckets. *)
Theorem groupOutcomesByLevel_regroup (outs : list Outcome) :
  groupOutcomesByLevel (flatten (groupOutcomesByLevel outs)) =
  groupOutcomesByLevel outs.
Proof.
  apply grouped_ext. intros level.
  rewrite (groupOutcomesByLevel_bucket (flatten _)).
  set (g := groupOutcomesByLevel outs).
  assert (Hpick : forall l l',
            List.filter (hasLevel l') (bucket g l) =
            if bool_decide (l = l') then bucket g l else []).
  { intros l l'. destruct (bool_decide (l = l')) eqn:Hd.
    - apply filter_all. intros x Hx.
      now rewrite (bucket_levels outs l l' x Hx).
    - apply filter_none. intros x Hx.
      now rewrite (bucket_levels outs l l' x Hx). }
  assert (Hsorted : forall l, weightDescending (bucket g l)).
  { intros l. unfold g. rewrite groupOutcomesByLevel_bucket.
    apply array_sort_descending. }
  clearbody g. unfold flatten. rewrite !List.filter_app.
  change (role g) with (bucket g L_role).
  change (risk_level g) with (bucket g L_risk_level).
  change (obligation g) with (bucket g L_obligation).
  rewrite !Hpick.
  destruct level; simpl; rewrite ?app_nil_r; apply array_sort_sorted_id.
  - exact (Hsorted L_role).
  - exact (Hsorted L_risk_level).
  - exact (Hsorted L_obligation).
Qed.

(** X29. Grouping neither loses nor repeats an outcome: the three
    buckets together are a rearrangement of the input. *)
Theorem groupOutcomesByLevel_keeps_all (outs : list Outcome) :
  Permutation (flatten (groupOutcomesByLevel outs)) outs.
Proof.
  unfold flatten.
  change (role (groupOutcomesByLevel outs))
    with (bucket (groupOutcomesByLevel outs) L_role).
  change (risk_level (groupOutcomesByLevel outs))
    with (bucket (groupOutcomesByLevel outs) L_risk_level).
  change (obligation (groupOutcomesByLevel outs))
    with (bucket (groupOutcomesByLevel outs) L_obligation).
  rewrite !groupOutcomesByLevel_bucket, !array_sort_Permutation.
  induction outs as [| o outs IH]; [reflexivity |]. cbn [List.filter].
  pose proof (eq_refl : hasLevel L_role o =
                bool_decide (structure_level o = L_role)) as Hrole.
  pose proof (eq_refl : hasLevel L_risk_level o =
                bool_decide (structure_level o = L_risk_level)) as Hrisk.
  pose proof (eq_refl : hasLevel L_obligation o =
                bool_decide (structure_level o = L_obligation)) as Hobl.
  destruct (structure_level o); simpl in Hrole, Hrisk, Hobl;
    rewrite Hrole, Hrisk, Hobl.
  - simpl. now apply perm_skip.
  - simpl. rewrite <- Permutation_middle. now apply perm_skip.
  - rewrite app_assoc, <- Permutation_middle, <- app_assoc. now apply perm_skip.
Qed.

(** ** The wizard's step and the hub effect *)

Lemma hubEffect_noop (tree : DecisionTreeData) (c : WizardComponent) :
  finalNodeId (processHubNodes tree (currentNodeId (state (wizard c)))
                 (flags (state (wizard c)))) =
  currentNodeId (state (wizard c)) ->
  hubEffect tree c = c.
Proof.
  intros Hsame. unfold hubEffect. cbv zeta.
  destruct (getNode tree _) as [n |]; [| reflexivity].
  destruct (node_type n); try reflexivity.
  now rewrite Hsame, String.eqb_refl.
Qed.

(** X30. After a step on which a route was found the effect that
    resolves hubs after a render finds nothing to do, unless the cap cut
    the hub chain of the step: the node the step ends on resolves to
    itself on the flags the step stored. *)
Theorem hubEffect_after_step (tree : DecisionTreeData)
    (questions : gmap string Question) (rules : gmap string ValidationRule)
    (c : WizardComponent) (node : DecisionNode) (q : Question)
    (next : RoutingResult) :
  currentNode tree c = Some node ->
  currentQuestion tree questions c = Some q ->
  isValid (validateAnswer q (currentAnswers tree questions c)
             (rules !! q_id q)) = true ->
  evaluateRouting node (currentAnswers tree questions c)
    (applyFlags (flags (state (wizard c)))
       (getAllFlagsForAnswer node (currentAnswers tree questions c)
          (flags (state (wizard c))))) = Some next ->
  ~ (exists acc s',
       hubChain tree 50
         (nextNodeId next,
          applyFlags (flags (state (wizard c)))
            (getAllFlagsForAnswer node (currentAnswers tree questions c)
               (flags (state (wizard c))) ++ flagsToSet next))
         acc s') ->
  hubEffect tree (handleNext tree questions rules c) =
  handleNext tree questions rules c.
Proof.
  intros Hnode Hq Hvalid Hroute Hcap.
  apply hubEffect_noop.
  pose proof (handleNext_routed_state tree questions rules c node q next
                Hnode Hq Hvalid Hroute) as Hstate.
  cbv zeta in Hstate. rewrite Hstate. cbn [currentNodeId flags].
  pose proof (processHubNodes_again tree (nextNodeId next)
                (applyFlags (flags (state (wizard c)))
                   (getAllFlagsForAnswer node (currentAnswers tree questions c)
                      (flags (state (wizard c))) ++ flagsToSet next)))
    as Hagain.
  destruct (processHubNodes tree (nextNodeId next) _) as [final acc].
  cbn [finalNodeId accumulatedFlags] in *.
  destruct Hagain as [Hchain | Hagain]; [contradiction |].
  rewrite Hagain. reflexivity.
Qed.

Lemma hubEffect_after_step_witness :
  hubEffect wizardTree (handleNext wizardTree wizardQuestions ∅ answeredStart) =
  handleNext wizardTree wizardQuestions ∅ answeredStart.
Proof.
  apply (hubEffect_after_step wizardTree wizardQuestions ∅ answeredStart
           endNode radioQuestion
           {| nextNodeId := "END"; flagsToSet := [seenFlag] |}).
  - reflexivity.
  - reflexivity.
  - vm_compute. reflexivity.
  - reflexivity.
  - intros (acc & s' & Hchain).
    inversion Hchain as [| n s1 f1 s2 f2 s3 Hhop _]; subst.
    inversion Hhop as [nodeId fl0 node0 result Hne _ _ _]; subst.
    now apply Hne.
Defined.
